(** * NX-GZIP hardware interface (nxu.h) and the CUDA result check (cudaCheck.h)

    A shallow embedding of the register accessors, the completion-extension
    predicates, the function-code table, the timebase helpers of
    [power-gzip/inc_nx/nxu.h] and of [cudaCheck_] of [cudautils/cudaCheck.h],
    with the properties the specification states about them.

    Conventions.  A C [uint32_t] / [uint64_t] is a [Z] in [0, 2^32) /
    [0, 2^64); every operation writes its wrap-around out.  A C operation
    whose behaviour is undefined (a shift by a negative amount or by at
    least the width of the type, C11 6.5.7p3) yields [None]. *)

From Stdlib Require Import ZArith Lia Bool List String Ascii.
From Stdlib Require Import DecimalString.
From coqutil Require Import Z.bitblast.
Import ListNotations.

Local Open Scope Z_scope.

(** ** Machine integers *)

Module UInt.

Definition wrap32 (x : Z) : Z := x mod 2 ^ 32.
Definition wrap64 (x : Z) : Z := x mod 2 ^ 64.

Definition is_u32 (x : Z) : Prop := 0 <= x < 2 ^ 32.
Definition is_u64 (x : Z) : Prop := 0 <= x < 2 ^ 64.

(** [a << n] and [a >> n] on [unsigned int]: undefined unless [0 <= n < 32]. *)
Definition shl32 (a n : Z) : option Z :=
  if (0 <=? n) && (n <? 32) then Some (wrap32 (Z.shiftl a n)) else None.

Definition shr32 (a n : Z) : option Z :=
  if (0 <=? n) && (n <? 32) then Some (Z.shiftr a n) else None.

(** [~a] on [unsigned int]. *)
Definition not32 (a : Z) : Z := wrap32 (Z.lnot a).

(** C truth values: [!x], [a == b], [a != b], [a && b] yield the [int] 0 or 1. *)
Definition c_not (x : Z) : Z := if x =? 0 then 1 else 0.
Definition c_eq (a b : Z) : Z := if a =? b then 1 else 0.
Definition c_ne (a b : Z) : Z := if a =? b then 0 else 1.
Definition c_and (a b : Z) : Z := if a =? 0 then 0 else if b =? 0 then 0 else 1.

(** A C condition holds when the scalar is not zero. *)
Definition holds (x : Z) : Prop := x <> 0.

End UInt.
Import UInt.

(** The option monad threads undefined behaviour through the macros. *)
Definition obind {A B : Type} (m : option A) (k : A -> option B) : option B :=
  match m with
  | Some a => k a
  | None => None
  end.

Notation "x <- m ;; k" := (obind m (fun x => k))
  (at level 61, m at next level, right associativity).

(** ** Host byte order and <endian.h> *)

(** [__BYTE_ORDER] of the host the header is compiled for: POWER9 runs
    either way. *)
Inductive byte_order : Type :=
| LittleEndian
| BigEndian.

(** [__bswap_constant_32] of glibc's <bits/byteswap.h>, on a [uint32_t]. *)
Definition bswap_32 (x : Z) : Z :=
  Z.lor (Z.lor (Z.lor (Z.shiftr (Z.land x 0xff000000) 24)
                      (Z.shiftr (Z.land x 0x00ff0000) 8))
               (wrap32 (Z.shiftl (Z.land x 0x0000ff00) 8)))
        (wrap32 (Z.shiftl (Z.land x 0x000000ff) 24)).

(** [__bswap_constant_64], on a [uint64_t]. *)
Definition bswap_64 (x : Z) : Z :=
  Z.lor (Z.lor (Z.lor (Z.lor (Z.lor (Z.lor (Z.lor
    (Z.shiftr (Z.land x 0xff00000000000000) 56)
    (Z.shiftr (Z.land x 0x00ff000000000000) 40))
    (Z.shiftr (Z.land x 0x0000ff0000000000) 24))
    (Z.shiftr (Z.land x 0x000000ff00000000) 8))
    (wrap64 (Z.shiftl (Z.land x 0x00000000ff000000) 8)))
    (wrap64 (Z.shiftl (Z.land x 0x0000000000ff0000) 24)))
    (wrap64 (Z.shiftl (Z.land x 0x000000000000ff00) 40)))
    (wrap64 (Z.shiftl (Z.land x 0x00000000000000ff) 56)).

(** <endian.h>: on a little-endian host the conversions swap, on a
    big-endian host they are [__uint32_identity] / [__uint64_identity].
    The argument is converted to the unsigned type of the parameter. *)
Definition htobe32 (h : byte_order) (x : Z) : Z :=
  match h with
  | LittleEndian => bswap_32 (wrap32 x)
  | BigEndian => wrap32 x
  end.

Definition be32toh (h : byte_order) (x : Z) : Z := htobe32 h x.

Definition htobe64 (h : byte_order) (x : Z) : Z :=
  match h with
  | LittleEndian => bswap_64 (wrap64 x)
  | BigEndian => wrap64 x
  end.

Definition be64toh (h : byte_order) (x : Z) : Z := htobe64 h x.

(** Byte [k] (0 = least significant) of a value. *)
Definition byte_of (x k : Z) : Z := Z.land (Z.shiftr x (8 * k)) 0xff.

(** The object representation of a [uint32_t] / [uint64_t] lvalue: its
    bytes in memory, lowest address first.  This is what the coprocessor
    reads and writes. *)
Definition bytes_of_u32 (h : byte_order) (x : Z) : list Z :=
  match h with
  | LittleEndian => [byte_of x 0; byte_of x 1; byte_of x 2; byte_of x 3]
  | BigEndian => [byte_of x 3; byte_of x 2; byte_of x 1; byte_of x 0]
  end.

Definition bytes_of_u64 (h : byte_order) (x : Z) : list Z :=
  match h with
  | LittleEndian =>
      [byte_of x 0; byte_of x 1; byte_of x 2; byte_of x 3;
       byte_of x 4; byte_of x 5; byte_of x 6; byte_of x 7]
  | BigEndian =>
      [byte_of x 7; byte_of x 6; byte_of x 5; byte_of x 4;
       byte_of x 3; byte_of x 2; byte_of x 1; byte_of x 0]
  end.

(** The big-endian byte representation of a value, and the value a
    sequence of bytes denotes when read most significant byte first. *)
Definition be_bytes32 (v : Z) : list Z :=
  [byte_of v 3; byte_of v 2; byte_of v 1; byte_of v 0].

Definition be_bytes64 (v : Z) : list Z :=
  [byte_of v 7; byte_of v 6; byte_of v 5; byte_of v 4;
   byte_of v 3; byte_of v 2; byte_of v 1; byte_of v 0].

Definition be_value (bs : list Z) : Z :=
  fold_left (fun acc b => acc * 256 + b) bs 0.

(** ** Register fields and the access macros *)

(** [size_mask(x)] is [((1U<<(x))-1)]. *)
Definition size_mask (x : Z) : option Z :=
  p <- shl32 1 x ;; Some (wrap32 (p - 1)).

(** A register field [REG] is declared by the pair of macros [REG_mask]
    (always [size_mask(width)]) and [REG_offset], the position of the
    right-most bit of the field when the most significant bit of the
    containing 32 bits is numbered 0. *)
Record field : Type := mkfield { width : Z; offset : Z }.

Definition mask (REG : field) : option Z := size_mask (width REG).

Definition dde_count : field := mkfield 8 23.
Definition csb_v : field := mkfield 1 0.
Definition csb_f : field := mkfield 1 6.
Definition csb_cs : field := mkfield 8 15.
Definition csb_cc : field := mkfield 8 23.
Definition csb_ce : field := mkfield 8 31.
Definition ccb_cm : field := mkfield 3 31.
Definition vas_buf_num : field := mkfield 6 5.
Definition send_wc_id : field := mkfield 16 31.
Definition recv_wc_id : field := mkfield 16 31.
Definition vas_invalid : field := mkfield 1 31.
Definition nxsf_t : field := mkfield 1 23.
Definition nxsf_fs : field := mkfield 8 31.
Definition in_histlen : field := mkfield 12 11.
Definition in_dhtlen : field := mkfield 12 31.
Definition in_subc : field := mkfield 3 31.
Definition in_sfbt : field := mkfield 4 15.
Definition in_rembytecnt : field := mkfield 16 31.
Definition out_tebc : field := mkfield 3 15.
Definition out_subc : field := mkfield 16 31.
Definition out_sfbt : field := mkfield 4 15.
Definition out_rembytecnt : field := mkfield 16 31.
Definition out_dhtlen : field := mkfield 12 31.
Definition gzip_fc : field := mkfield 8 31.
Definition crb_c : field := mkfield 1 28.
Definition crb_at : field := mkfield 1 30.

Definition declared_fields : list field :=
  [dde_count; csb_v; csb_f; csb_cs; csb_cc; csb_ce; ccb_cm; vas_buf_num;
   send_wc_id; recv_wc_id; vas_invalid; nxsf_t; nxsf_fs; in_histlen;
   in_dhtlen; in_subc; in_sfbt; in_rembytecnt; out_tebc; out_subc; out_sfbt;
   out_rembytecnt; out_dhtlen; gzip_fc; crb_c; crb_at].

(** In the access macros [st] is the value of the lvalue [ST.REG] as the
    host reads it; a put macro yields the value assigned to [ST.REG].  The
    pointer forms ([getpnn], [getp32], [getp64], [ungetp32], [putpnn],
    [putp32], [putp64]) differ only in naming the lvalue [(ST)->REG]. *)
Section Accessors.

Variable h : byte_order.

Definition get32 (st : Z) : Z := be32toh h st.
Definition get64 (st : Z) : Z := be64toh h st.

Definition getnn (REG : field) (st : Z) : option Z :=
  m <- mask REG ;;
  s <- shr32 (be32toh h st) (31 - offset REG) ;;
  Some (Z.land s m).

(** get 32 bits less the REG field *)
Definition unget32 (REG : field) (st : Z) : option Z :=
  m <- mask REG ;;
  sm <- shl32 m (31 - offset REG) ;;
  Some (Z.land (get32 st) (not32 sm)).

Definition putnn (REG : field) (st X : Z) : option Z :=
  u <- unget32 REG st ;;
  m <- mask REG ;;
  f <- shl32 (Z.land X m) (31 - offset REG) ;;
  Some (htobe32 h (Z.lor u f)).

Definition put32 (X : Z) : Z := htobe32 h X.
Definition put64 (X : Z) : Z := htobe64 h X.

Definition getpnn := getnn.
Definition getp32 := get32.
Definition getp64 := get64.
Definition ungetp32 := unget32.
Definition putpnn := putnn.
Definition putp32 := put32.
Definition putp64 := put64.

End Accessors.

(** [nx_dde_t] and [clear_dde], the one macro of the family that assigns
    without a conversion: it assigns the constant 0. *)
Record nx_dde_t : Type := mk_dde { dde_count_word : Z; ddebc : Z; ddead : Z }.

Definition clear_dde (ST : nx_dde_t) : nx_dde_t := mk_dde 0 0 0.

Definition dde_bytes (h : byte_order) (ST : nx_dde_t) : list Z :=
  bytes_of_u32 h (dde_count_word ST) ++ bytes_of_u32 h (ddebc ST)
  ++ bytes_of_u64 h (ddead ST).

(** The bit positions (least significant bit = 0) that a field occupies in
    the register value: its low bit is bit [31 - offset]. *)
Definition in_field (REG : field) (i : Z) : Prop :=
  31 - offset REG <= i < 31 - offset REG + width REG.


(** A field lies inside its 32-bit word when its width is at most the
    number of bits from the most significant bit to its right-most bit. *)
Definition fits (REG : field) : Prop :=
  1 <= width REG <= 31 /\ width REG - 1 <= offset REG <= 31.

Definition fitsb (REG : field) : bool :=
  (1 <=? width REG) && (width REG <=? 31)
  && (width REG - 1 <=? offset REG) && (offset REG <=? 31).

(** Pack then unpack: [getnn] of the register that [putnn] assigned. *)
Definition pack_unpack (h : byte_order) (o w st v : Z) : option Z :=
  st' <- putnn h (mkfield w o) st v ;; getnn h (mkfield w o) st'.

Definition roundtrip_at (h : byte_order) (o w st v : Z) : Prop :=
  pack_unpack h o w st v = Some (v mod 2 ^ w).

(** What [putnn] does to the register, read in register (big-endian)
    order: [cl] is the intermediate value of [unget32], [st'] the value
    assigned.  Each of the [w] bits of the field is a bit of the word and
    is zero in [cl]; [cl] agrees with the register everywhere else; the
    assigned register is [cl] with the new value OR-ed in at the field;
    and no bit outside the field changes. *)
Definition frame_at (h : byte_order) (o w st v : Z) : Prop :=
  let REG := mkfield w o in
  exists cl st',
    unget32 h REG st = Some cl /\
    putnn h REG st v = Some st' /\
    (forall i, in_field REG i -> 0 <= i < 32 /\ Z.testbit cl i = false) /\
    (forall i, 0 <= i -> ~ in_field REG i ->
               Z.testbit cl i = Z.testbit (get32 h st) i) /\
    get32 h st' = Z.lor cl (Z.shiftl (v mod 2 ^ w) (31 - o)) /\
    (forall i, 0 <= i -> ~ in_field REG i ->
               Z.testbit (get32 h st') i = Z.testbit (get32 h st) i).

(** Two hosts, possibly of different byte order, looking at the same
    bytes of memory through a [uint32_t] / [uint64_t] lvalue. *)
Definition same_memory32 (h1 h2 : byte_order) (st1 st2 : Z) : Prop :=
  bytes_of_u32 h1 st1 = bytes_of_u32 h2 st2.

Definition same_memory64 (h1 h2 : byte_order) (st1 st2 : Z) : Prop :=
  bytes_of_u64 h1 st1 = bytes_of_u64 h2 st2.

(** No accessor has a native-order path: a load yields the big-endian
    reading of the bytes in memory, so all hosts get the same value from
    the same memory, and a store leaves the same bytes in memory on all
    hosts. *)
Definition loads_big_endian : Prop :=
  (forall h st, get32 h st = be_value (bytes_of_u32 h st)) /\
  (forall h st, get64 h st = be_value (bytes_of_u64 h st)) /\
  (forall h1 h2 st1 st2 REG,
      same_memory32 h1 h2 st1 st2 ->
      get32 h1 st1 = get32 h2 st2 /\
      getnn h1 REG st1 = getnn h2 REG st2 /\
      unget32 h1 REG st1 = unget32 h2 REG st2) /\
  (forall h1 h2 st1 st2,
      same_memory64 h1 h2 st1 st2 -> get64 h1 st1 = get64 h2 st2).

Definition stores_big_endian : Prop :=
  (forall h X, bytes_of_u32 h (put32 h X) = be_bytes32 X) /\
  (forall h X, bytes_of_u64 h (put64 h X) = be_bytes64 X) /\
  (forall h1 h2 st1 st2 REG X,
      same_memory32 h1 h2 st1 st2 ->
      option_map (bytes_of_u32 h1) (putnn h1 REG st1 X) =
      option_map (bytes_of_u32 h2) (putnn h2 REG st2 X)) /\
  (forall h1 h2 ST1 ST2,
      dde_bytes h1 (clear_dde ST1) = dde_bytes h2 (clear_dde ST2)).

(** The sub-word accessors as the coprocessor sees them: on the bytes
    [bs] of the register in memory, lowest address first, read as one
    big-endian 32-bit number.  No host byte order appears in them. *)
Definition be_getnn (REG : field) (bs : list Z) : option Z :=
  m <- mask REG ;;
  s <- shr32 (be_value bs) (31 - offset REG) ;;
  Some (Z.land s m).

Definition be_unget32 (REG : field) (bs : list Z) : option Z :=
  m <- mask REG ;;
  sm <- shl32 m (31 - offset REG) ;;
  Some (Z.land (be_value bs) (not32 sm)).

(** The bytes left in memory: the big-endian representation of the
    register with the field replaced. *)
Definition be_putnn (REG : field) (bs : list Z) (X : Z) : option (list Z) :=
  u <- be_unget32 REG bs ;;
  m <- mask REG ;;
  f <- shl32 (Z.land X m) (31 - offset REG) ;;
  Some (be_bytes32 (Z.lor u f)).

(** Every sub-word accessor, in its struct form and in its pointer form,
    is the big-endian accessor on the bytes in memory, on every host. *)
Definition subword_big_endian : Prop :=
  forall h REG st X,
    (getnn h REG st = be_getnn REG (bytes_of_u32 h st) /\
     getpnn h REG st = be_getnn REG (bytes_of_u32 h st)) /\
    (unget32 h REG st = be_unget32 REG (bytes_of_u32 h st) /\
     ungetp32 h REG st = be_unget32 REG (bytes_of_u32 h st)) /\
    (option_map (bytes_of_u32 h) (putnn h REG st X)
       = be_putnn REG (bytes_of_u32 h st) X /\
     option_map (bytes_of_u32 h) (putpnn h REG st X)
       = be_putnn REG (bytes_of_u32 h st) X).

(** The pointer forms of the whole-word accessors load the big-endian
    reading of memory and store the big-endian representation. *)
Definition pointer_forms_big_endian : Prop :=
  forall h st X,
    getp32 h st = be_value (bytes_of_u32 h st) /\
    getp64 h st = be_value (bytes_of_u64 h st) /\
    bytes_of_u32 h (putp32 h X) = be_bytes32 X /\
    bytes_of_u64 h (putp64 h X) = be_bytes64 X.

(** ** Completion extension ce(0) ce(1) ce(2) *)

Definition get_csb_ce (h : byte_order) (st : Z) : option Z :=
  x <- getnn h csb_ce st ;; Some (wrap32 x).

Definition CSB_CE_PARTIAL : Z := 0x4.
Definition CSB_CE_TERMINATE : Z := 0x2.
Definition CSB_CE_TPBC_VALID : Z := 0x1.

Definition csb_ce_termination (X : Z) : Z :=
  c_not (c_not (Z.land X CSB_CE_TERMINATE)).

(** if not terminated then check full or partial completion *)
Definition csb_ce_check_completion (X : Z) : Z :=
  c_not (csb_ce_termination X).

Definition csb_ce_partial_completion (X : Z) : Z :=
  c_not (c_not (Z.land X CSB_CE_PARTIAL)).

Definition csb_ce_full_completion (X : Z) : Z :=
  c_not (csb_ce_partial_completion X).

Definition csb_ce_tpbc_valid (X : Z) : Z :=
  c_not (c_not (Z.land X CSB_CE_TPBC_VALID)).

Definition csb_ce_default_err (X : Z) : Z := csb_ce_termination X.

Definition csb_ce_cc3_partial (X : Z) : Z := csb_ce_partial_completion X.

(** [((X)&(CSB_CE_PARTIAL | CSB_CE_TERMINATE) == 0)]: in C [==] binds
    tighter than [&], so the macro is
    [(X) & ((CSB_CE_PARTIAL | CSB_CE_TERMINATE) == 0)]. *)
Definition csb_ce_cc64 (X : Z) : Z :=
  Z.land X (c_eq (Z.lor CSB_CE_PARTIAL CSB_CE_TERMINATE) 0).

(** What the comment of [csb_ce_cc64] asks for, with the comparison
    applied to the masked value: neither the partial nor the terminate
    flag is set. *)
Definition cc64_flags_clear (X : Z) : Z :=
  c_eq (Z.land X (Z.lor CSB_CE_PARTIAL CSB_CE_TERMINATE)) 0.

Definition ERR_NX_OK : Z := 0.
Definition ERR_NX_TPBC_GT_SPBC : Z := 64.

(** The one-bit flag [F] (a power of two) is set in [X]. *)
Definition flag_set (X F : Z) : Prop := Z.testbit X (Z.log2 F) = true.

Definition exactly_one (A B C : Prop) : Prop :=
  (A /\ ~ B /\ ~ C) \/ (~ A /\ B /\ ~ C) \/ (~ A /\ ~ B /\ C).

(** ** NX gzip function codes, Table 6.2 *)

Inductive function_code : Type :=
| GZIP_FC_COMPRESS_FHT
| GZIP_FC_COMPRESS_DHT
| GZIP_FC_COMPRESS_FHT_COUNT
| GZIP_FC_COMPRESS_DHT_COUNT
| GZIP_FC_COMPRESS_RESUME_FHT
| GZIP_FC_COMPRESS_RESUME_DHT
| GZIP_FC_COMPRESS_RESUME_FHT_COUNT
| GZIP_FC_COMPRESS_RESUME_DHT_COUNT
| GZIP_FC_DECOMPRESS
| GZIP_FC_DECOMPRESS_SINGLE_BLK_N_SUSPEND
| GZIP_FC_DECOMPRESS_RESUME
| GZIP_FC_DECOMPRESS_RESUME_SINGLE_BLK_N_SUSPEND
| GZIP_FC_WRAP.

Definition GZIP_FC_LIMIT_MASK : Z := 0x01.

(** The value each macro expands to. *)
Definition fc_value (c : function_code) : Z :=
  match c with
  | GZIP_FC_COMPRESS_FHT => 0x00
  | GZIP_FC_COMPRESS_DHT => 0x02
  | GZIP_FC_COMPRESS_FHT_COUNT => 0x04
  | GZIP_FC_COMPRESS_DHT_COUNT => 0x06
  | GZIP_FC_COMPRESS_RESUME_FHT => 0x08
  | GZIP_FC_COMPRESS_RESUME_DHT => 0x0a
  | GZIP_FC_COMPRESS_RESUME_FHT_COUNT => 0x0c
  | GZIP_FC_COMPRESS_RESUME_DHT_COUNT => 0x0e
  | GZIP_FC_DECOMPRESS => 0x10
  | GZIP_FC_DECOMPRESS_SINGLE_BLK_N_SUSPEND => 0x12
  | GZIP_FC_DECOMPRESS_RESUME => 0x14
  | GZIP_FC_DECOMPRESS_RESUME_SINGLE_BLK_N_SUSPEND => 0x16
  | GZIP_FC_WRAP => 0x1e
  end.

Definition function_codes : list function_code :=
  [GZIP_FC_COMPRESS_FHT; GZIP_FC_COMPRESS_DHT; GZIP_FC_COMPRESS_FHT_COUNT;
   GZIP_FC_COMPRESS_DHT_COUNT; GZIP_FC_COMPRESS_RESUME_FHT;
   GZIP_FC_COMPRESS_RESUME_DHT; GZIP_FC_COMPRESS_RESUME_FHT_COUNT;
   GZIP_FC_COMPRESS_RESUME_DHT_COUNT; GZIP_FC_DECOMPRESS;
   GZIP_FC_DECOMPRESS_SINGLE_BLK_N_SUSPEND; GZIP_FC_DECOMPRESS_RESUME;
   GZIP_FC_DECOMPRESS_RESUME_SINGLE_BLK_N_SUSPEND; GZIP_FC_WRAP].

Definition fc_is_compress (fc : Z) : Z := c_eq (Z.land fc 0x10) 0.

Definition fc_has_count (fc : Z) : Z :=
  c_and (fc_is_compress fc) (c_ne (Z.land fc 0x4) 0).

(** The operation a code names in Table 6.2 (the comment of [gzip_fc]). *)
Inductive operation : Type := Compress | Decompress | Wrap.

Definition fc_operation (c : function_code) : operation :=
  match c with
  | GZIP_FC_DECOMPRESS | GZIP_FC_DECOMPRESS_SINGLE_BLK_N_SUSPEND
  | GZIP_FC_DECOMPRESS_RESUME
  | GZIP_FC_DECOMPRESS_RESUME_SINGLE_BLK_N_SUSPEND => Decompress
  | GZIP_FC_WRAP => Wrap
  | _ => Compress
  end.

(** The four codes whose name ends in [_COUNT] ("Count LZ77 symbols"). *)
Definition count_variants : list function_code :=
  [GZIP_FC_COMPRESS_FHT_COUNT; GZIP_FC_COMPRESS_DHT_COUNT;
   GZIP_FC_COMPRESS_RESUME_FHT_COUNT; GZIP_FC_COMPRESS_RESUME_DHT_COUNT].

(** ** Initial values for non-resume operations *)

Definition INIT_CRC : Z := 0.   (* crc32(0L, Z_NULL, 0) *)
Definition INIT_ADLER : Z := 1. (* adler32(0L, Z_NULL, 0) *)

(** The two standard checksums, as references for the seeds (zlib is not
    part of the repository): CRC-32 of RFC 1952 section 8, bit by bit with
    the reflected polynomial, and Adler-32 of RFC 1950 section 8.2. *)
Module Checksum.

Definition crc_step (c : Z) : Z :=
  if Z.testbit c 0 then Z.lxor 0xedb88320 (Z.shiftr c 1) else Z.shiftr c 1.

Definition crc_byte (c b : Z) : Z :=
  Nat.iter 8 crc_step (Z.lxor c (Z.land b 0xff)).

Definition crc32 (buf : list Z) : Z :=
  Z.lxor (fold_left crc_byte buf 0xffffffff) 0xffffffff.

Definition BASE : Z := 65521.

Definition adler_byte (s : Z * Z) (b : Z) : Z * Z :=
  let s1 := (fst s + Z.land b 0xff) mod BASE in
  let s2 := (snd s + s1) mod BASE in
  (s1, s2).

Definition adler32 (buf : list Z) : Z :=
  let s := fold_left adler_byte buf (1, 0) in
  Z.lor (Z.shiftl (snd s) 16) (fst s).

Definition bytes_of_string (s : string) : list Z :=
  map (fun c => Z.of_nat (nat_of_ascii c)) (list_ascii_of_string s).

End Checksum.

(** ** The timebase helpers *)

(** [tb_freq] is the global the header declares [extern]; the world also
    counts the calls made to [__ppc_get_timebase_freq]. *)
Record world : Type := mkworld { tb_freq : Z; hw_reads : nat }.

Section Timebase.

(** [__ppc_get_timebase_freq] of <sys/platform/ppc.h>: what the platform
    answers to its [k]-th call. *)
Variable ppc_get_timebase_freq : nat -> Z.

Definition nx_get_freq (w : world) : Z * world :=
  if tb_freq w =? 0 then
    let f := wrap64 (ppc_get_timebase_freq (hw_reads w)) in
    (f, mkworld f (S (hw_reads w)))
  else (tb_freq w, w).

(** [n] calls in a row: the values returned, first call first, and the
    world they leave. *)
Fixpoint nx_get_freq_calls (n : nat) (w : world) : list Z * world :=
  match n with
  | O => ([], w)
  | S n' =>
      let (f, w1) := nx_get_freq w in
      let (fs, w2) := nx_get_freq_calls n' w1 in
      (f :: fs, w2)
  end.

End Timebase.

Definition nx_time_diff (t1 t2 : Z) : Z :=
  if t2 >=? t1 then wrap64 (t2 - t1)
  else wrap64 (wrap64 (0xFFFFFFFFFFFFFFF - t1) + t2).

(** ** cudaCheck.h *)

Local Open Scope string_scope.

(** A call either returns a value or leaves by throwing a
    [std::runtime_error] that carries [what]. *)
Inductive outcome (A : Type) : Type :=
| Returns (a : A)
| Throws (what : string).

Arguments Returns {A} a.
Arguments Throws {A} what.

Definition seq_outcome {A B : Type} (m : outcome A) (k : A -> outcome B)
  : outcome B :=
  match m with
  | Returns a => k a
  | Throws what => Throws what
  end.

Definition nl : string := String (ascii_of_nat 10) EmptyString.

(** [out << line] for an [int]: its decimal digits, with a sign when
    negative. *)
Definition show_int (n : Z) : string := NilZero.string_of_int (Z.to_int n).

(** [needle] occurs in [s]. *)
Definition contains (s needle : string) : Prop :=
  exists before after, s = before ++ needle ++ after.

Definition printCudaErrorMessage
  (file : string) (line : Z) (cmd error message : string) : outcome unit :=
  let out := "" in
  let out := out ++ nl in
  let out := out ++ file ++ ", line " ++ show_int line ++ ":" ++ nl in
  let out := out ++ "cudaCheck(" ++ cmd ++ ");" ++ nl in
  let out := out ++ error ++ ": " ++ message ++ nl in
  Throws out.

Section Cuda.

(** The CUDA driver and runtime API, from <cuda.h> and <cuda_runtime.h>:
    the success enumerators of [CUresult] and [cudaError_t], and the
    lookups of the name and the description of a result, taken to yield
    C strings. *)
Variables CUDA_SUCCESS cudaSuccess : Z.
Variables cuGetErrorName cuGetErrorString : Z -> string.
Variables cudaGetErrorName cudaGetErrorString : Z -> string.

(** The overload for [CUresult]. *)
Definition cudaCheck_CUresult
  (file : string) (line : Z) (cmd : string) (result : Z) : outcome bool :=
  if (result =? CUDA_SUCCESS)%Z then Returns true
  else
    let error := cuGetErrorName result in
    let message := cuGetErrorString result in
    seq_outcome (printCudaErrorMessage file line cmd error message)
      (fun _ => Returns false).

(** The overload for [cudaError_t]. *)
Definition cudaCheck_cudaError_t
  (file : string) (line : Z) (cmd : string) (result : Z) : outcome bool :=
  if (result =? cudaSuccess)%Z then Returns true
  else
    let error := cudaGetErrorName result in
    let message := cudaGetErrorString result in
    seq_outcome (printCudaErrorMessage file line cmd error message)
      (fun _ => Returns false).

(** What the thrown message has to mention. *)
Definition reports (what file : string) (line : Z) (cmd error message : string)
  : Prop :=
  contains what file /\ contains what (show_int line) /\ contains what cmd /\
  contains what error /\ contains what message.

End Cuda.

Local Close Scope string_scope.


(** * Further parts of nxu.h *)

(** ** Fields that share a register word *)

(** Two fields occupy disjoint bits of a word. *)
Definition spans_disjoint (REG1 REG2 : field) : Prop :=
  31 - offset REG1 + width REG1 <= 31 - offset REG2 \/
  31 - offset REG2 + width REG2 <= 31 - offset REG1.

Definition spans_disjointb (REG1 REG2 : field) : bool :=
  (31 - offset REG1 + width REG1 <=? 31 - offset REG2)
  || (31 - offset REG2 + width REG2 <=? 31 - offset REG1).

(** The fields that the structs of the header overlay on one [uint32_t]
    by an anonymous union, union by union: [nx_csb_t], [vas_stamped_crb_t],
    [nx_stamped_fault_crb_t], the two unions of the input and of the
    output quadword of [nx_gzip_cpb_t], and [nx_gzip_crb_t]. *)
Definition union_words : list (list field) :=
  [ [csb_v; csb_f; csb_cs; csb_cc; csb_ce];
    [vas_buf_num; send_wc_id];
    [nxsf_t; nxsf_fs];
    [in_histlen; in_subc];
    [in_sfbt; in_rembytecnt; in_dhtlen];
    [out_tebc; out_subc];
    [out_sfbt; out_rembytecnt; out_dhtlen];
    [crb_c; crb_at] ].

(** ** The most significant three bits of the completion extension *)

Definition get_csb_ce_ms3b (h : byte_order) (st : Z) : option Z :=
  x <- get_csb_ce h st ;; shr32 x 5.

Definition put_csb_ce_ms3b (h : byte_order) (st X : Z) : option Z :=
  v <- shl32 (wrap32 X) 5 ;; putnn h csb_ce st v.

(** ** CSB.CC error codes *)

Definition ERR_NX_ALIGNMENT : Z := 1.
Definition ERR_NX_OPOVERLAP : Z := 2.
Definition ERR_NX_DATA_LENGTH : Z := 3.
Definition ERR_NX_TRANSLATION : Z := 5.
Definition ERR_NX_PROTECTION : Z := 6.
Definition ERR_NX_EXTERNAL_UE7 : Z := 7.
Definition ERR_NX_INVALID_OP : Z := 8.
Definition ERR_NX_PRIVILEGE : Z := 9.
Definition ERR_NX_INTERNAL_UE : Z := 10.
Definition ERR_NX_EXTERN_UE_WR : Z := 12.
Definition ERR_NX_TARGET_SPACE : Z := 13.
Definition ERR_NX_EXCESSIVE_DDE : Z := 14.
Definition ERR_NX_TRANSL_WR : Z := 15.
Definition ERR_NX_PROTECT_WR : Z := 16.
Definition ERR_NX_SUBFUNCTION : Z := 17.
Definition ERR_NX_FUNC_ABORT : Z := 18.
Definition ERR_NX_BYTE_MAX : Z := 19.
Definition ERR_NX_CORRUPT_CRB : Z := 20.
Definition ERR_NX_INVALID_CRB : Z := 21.
Definition ERR_NX_INVALID_DDE : Z := 30.
Definition ERR_NX_SEGMENTED_DDL : Z := 31.
Definition ERR_NX_DDE_OVERFLOW : Z := 33.
Definition ERR_NX_MISSING_CODE : Z := 66.
Definition ERR_NX_INVALID_DIST : Z := 67.
Definition ERR_NX_INVALID_DHT : Z := 68.
Definition ERR_NX_EXTERNAL_UE90 : Z := 90.
Definition ERR_NX_WDOG_TIMER : Z := 224.
Definition ERR_NX_AT_FAULT : Z := 250.
Definition ERR_NX_INTR_SERVER : Z := 252.
Definition ERR_NX_UE253 : Z := 253.
Definition ERR_NX_NO_HW : Z := 254.
Definition ERR_NX_HUNG_OP : Z := 255.
Definition ERR_NX_END : Z := 256.

(** Every code of the list but the end marker [ERR_NX_END]. *)
Definition nx_error_codes : list Z :=
  [ERR_NX_OK; ERR_NX_ALIGNMENT; ERR_NX_OPOVERLAP; ERR_NX_DATA_LENGTH;
   ERR_NX_TRANSLATION; ERR_NX_PROTECTION; ERR_NX_EXTERNAL_UE7;
   ERR_NX_INVALID_OP; ERR_NX_PRIVILEGE; ERR_NX_INTERNAL_UE;
   ERR_NX_EXTERN_UE_WR; ERR_NX_TARGET_SPACE; ERR_NX_EXCESSIVE_DDE;
   ERR_NX_TRANSL_WR; ERR_NX_PROTECT_WR; ERR_NX_SUBFUNCTION;
   ERR_NX_FUNC_ABORT; ERR_NX_BYTE_MAX; ERR_NX_CORRUPT_CRB;
   ERR_NX_INVALID_CRB; ERR_NX_INVALID_DDE; ERR_NX_SEGMENTED_DDL;
   ERR_NX_DDE_OVERFLOW; ERR_NX_TPBC_GT_SPBC; ERR_NX_MISSING_CODE;
   ERR_NX_INVALID_DIST; ERR_NX_INVALID_DHT; ERR_NX_EXTERNAL_UE90;
   ERR_NX_WDOG_TIMER; ERR_NX_AT_FAULT; ERR_NX_INTR_SERVER; ERR_NX_UE253;
   ERR_NX_NO_HW; ERR_NX_HUNG_OP].

(** ** The CSB address of the CRB *)

(** [~(15UL)], mask off bottom 4b; [unsigned long] has 64 bits on the
    POWER9 targets of the header. *)
Definition csb_address_mask : Z := wrap64 (Z.lnot 15).

(** In [nx_gzip_crb_t] the 64-bit [csb_address] is overlaid by a struct
    of [reserved2] and the word that holds [crb_c] and [crb_at]: that
    word is the last four bytes of the address. *)
Definition overlays_low_word (h : byte_order) (csb_address word : Z) : Prop :=
  bytes_of_u32 h word = skipn 4 (bytes_of_u64 h csb_address).

(** ** Deflate stream manipulation *)

Definition wrap8 (x : Z) : Z := x mod 2 ^ 8.
Definition is_u8 (x : Z) : Prop := 0 <= x < 2 ^ 8.

(** [(x |= (unsigned char)1)] and [(x &= ~(unsigned char)1)] on a byte
    [x]; the operand of [~] is promoted to [int], so the mask is [-2]. *)
Definition set_final_bit (x : Z) : Z := wrap8 (Z.lor x 1).
Definition clr_final_bit (x : Z) : Z := wrap8 (Z.land x (Z.lnot 1)).

(** [*(buf + i) = v]: undefined outside the buffer. *)
Fixpoint store_byte (buf : list Z) (i : nat) (v : Z) : option (list Z) :=
  match buf, i with
  | [], _ => None
  | _ :: rest, O => Some (v :: rest)
  | b :: rest, S i' => option_map (cons b) (store_byte rest i' v)
  end.

(** [append_empty_fh_blk(p, b)] with [p] pointing at byte [p] of [buf]. *)
Definition append_empty_fh_blk (buf : list Z) (p : nat) (b : Z)
  : option (list Z) :=
  buf1 <- store_byte buf p (wrap8 (Z.lor 2 (Z.land 1 b))) ;;
  store_byte buf1 (S p) 0.

(** Bit [k] of a Deflate stream: bits are packed into bytes starting at
    the least significant bit (RFC 1951 section 3.1.1). *)
Definition deflate_bit (buf : list Z) (k : nat) : bool :=
  Z.testbit (nth (k / 8) buf 0) (Z.of_nat (k mod 8)).

(** ** The integer part of [nx_time_to_us] *)

Section TimebaseConversion.

Variable ppc_get_timebase_freq : nat -> Z.

(** [nx_time_to_us] returns [(double) (nxtime * 1000000 / nx_get_freq())]:
    this is the [uint64_t] quotient that the cast converts, [None] when
    the division is by zero, with the world [nx_get_freq] leaves. *)
Definition nx_time_to_us_quotient (nxtime : Z) (w : world)
  : option Z * world :=
  let (freq, w') := nx_get_freq ppc_get_timebase_freq w in
  ((if freq =? 0 then None else Some (wrap64 (nxtime * 1000000) / freq)), w').

End TimebaseConversion.

(** ** Bit vectors behind the sub-word accessors *)

(** The register-order value [putnn] assigns, before the conversion and
    the truncation to 32 bits, and the value [getnn] extracts, for a
    field of width [w] whose low bit is bit [s]. *)
Definition insert_bits (g v w s : Z) : Z :=
  Z.lor (Z.land g (not32 (wrap32 (Z.shiftl (Z.ones w) s))))
        (wrap32 (Z.shiftl (Z.land v (Z.ones w)) s)).

Definition extract_bits (g w s : Z) : Z := Z.land (Z.shiftr g s) (Z.ones w).
(** * Properties *)

(** ** The access macros on concrete registers *)

Example getnn_csb_cc : getnn LittleEndian csb_cc 0x00402a00 = Some 0x40.
Proof. reflexivity. Qed.

Example putnn_csb_cc :
  putnn BigEndian csb_cc 0x80001203 64 = Some 0x80004003.
Proof. reflexivity. Qed.

Example putnn_getnn_gzip_fc :
  (st <- putnn LittleEndian gzip_fc 0 0x1e ;;
   Some (bytes_of_u32 LittleEndian st, getnn LittleEndian gzip_fc st))
  = Some ([0; 0; 0; 0x1e], Some 0x1e).
Proof. reflexivity. Qed.

Example size_mask_32_undefined : size_mask 32 = None.
Proof. reflexivity. Qed.

(** ** Bit-level facts about the machine operations *)

Ltac decide_cmp :=
  repeat match goal with
    | |- context [?a <? ?b] =>
        first [ rewrite (proj2 (Z.ltb_lt a b)) by lia
              | rewrite (proj2 (Z.ltb_ge a b)) by lia ]
    | |- context [?a <=? ?b] =>
        first [ rewrite (proj2 (Z.leb_le a b)) by lia
              | rewrite (proj2 (Z.leb_gt a b)) by lia ]
    end.

Lemma byte_down_bits x a b i :
  0 <= i -> 0 <= b -> b <= a ->
  Z.testbit (Z.shiftr (Z.land x (Z.shiftl (Z.ones 8) a)) b) i =
  (a - b <=? i) && (i <? a - b + 8) && Z.testbit x (i + b).
Proof.
  intros Hi Hb Hab.
  rewrite Z.shiftr_spec, Z.land_spec, Z.shiftl_spec, Z.testbit_ones by lia.
  destruct (Z.leb_spec (a - b) i), (Z.ltb_spec i (a - b + 8)),
    (Z.leb_spec 0 (i + b - a)), (Z.ltb_spec (i + b - a) 8);
    try lia;
    rewrite ?andb_true_l, ?andb_false_l, ?andb_false_r, ?andb_true_r;
    reflexivity.
Qed.

Lemma byte_up_bits x a b n i :
  0 <= i -> 0 <= b -> 0 <= a -> a + b + 8 <= n ->
  Z.testbit ((Z.shiftl (Z.land x (Z.shiftl (Z.ones 8) a)) b) mod 2 ^ n) i =
  (a + b <=? i) && (i <? a + b + 8) && Z.testbit x (i - b).
Proof.
  intros Hi Hb Ha Hn.
  rewrite Z.testbit_mod_pow2 by lia.
  destruct (Z.ltb_spec (i - b) 0) as [Hlow | Hlow].
  - rewrite Z.shiftl_spec_low by lia.
    rewrite (Z.testbit_neg_r x) by lia.
    rewrite !andb_false_r. reflexivity.
  - rewrite Z.shiftl_spec, Z.land_spec, Z.shiftl_spec, Z.testbit_ones by lia.
    destruct (Z.leb_spec (a + b) i), (Z.ltb_spec i (a + b + 8)),
      (Z.ltb_spec i n), (Z.leb_spec 0 (i - b - a)), (Z.ltb_spec (i - b - a) 8);
      try lia;
      rewrite ?andb_true_l, ?andb_false_l, ?andb_false_r, ?andb_true_r;
      reflexivity.
Qed.

Lemma bswap_32_bits x i :
  0 <= i ->
  Z.testbit (bswap_32 x) i =
    if i <? 8 then Z.testbit x (i + 24)
    else if i <? 16 then Z.testbit x (i + 8)
    else if i <? 24 then Z.testbit x (i - 8)
    else if i <? 32 then Z.testbit x (i - 24)
    else false.
Proof.
  intros Hi. unfold bswap_32, wrap32.
  change 0xff000000 with (Z.shiftl (Z.ones 8) 24).
  change 0x00ff0000 with (Z.shiftl (Z.ones 8) 16).
  change 0x0000ff00 with (Z.shiftl (Z.ones 8) 8).
  change 0x000000ff with (Z.shiftl (Z.ones 8) 0).
  rewrite !Z.lor_spec, !byte_down_bits, !byte_up_bits by lia.
  assert (C : i < 8 \/ 8 <= i < 16 \/ 16 <= i < 24 \/ 24 <= i < 32 \/ 32 <= i)
    by lia.
  decompose [or] C; decide_cmp; cbn; rewrite ?orb_false_r; reflexivity.
Qed.

Lemma bswap_64_bits x i :
  0 <= i ->
  Z.testbit (bswap_64 x) i =
    if i <? 8 then Z.testbit x (i + 56)
    else if i <? 16 then Z.testbit x (i + 40)
    else if i <? 24 then Z.testbit x (i + 24)
    else if i <? 32 then Z.testbit x (i + 8)
    else if i <? 40 then Z.testbit x (i - 8)
    else if i <? 48 then Z.testbit x (i - 24)
    else if i <? 56 then Z.testbit x (i - 40)
    else if i <? 64 then Z.testbit x (i - 56)
    else false.
Proof.
  intros Hi. unfold bswap_64, wrap64.
  change 0xff00000000000000 with (Z.shiftl (Z.ones 8) 56).
  change 0x00ff000000000000 with (Z.shiftl (Z.ones 8) 48).
  change 0x0000ff0000000000 with (Z.shiftl (Z.ones 8) 40).
  change 0x000000ff00000000 with (Z.shiftl (Z.ones 8) 32).
  change 0x00000000ff000000 with (Z.shiftl (Z.ones 8) 24).
  change 0x0000000000ff0000 with (Z.shiftl (Z.ones 8) 16).
  change 0x000000000000ff00 with (Z.shiftl (Z.ones 8) 8).
  change 0x00000000000000ff with (Z.shiftl (Z.ones 8) 0).
  rewrite !Z.lor_spec, !byte_down_bits, !byte_up_bits by lia.
  assert (C : i < 8 \/ 8 <= i < 16 \/ 16 <= i < 24 \/ 24 <= i < 32 \/
              32 <= i < 40 \/ 40 <= i < 48 \/ 48 <= i < 56 \/ 56 <= i < 64 \/
              64 <= i) by lia.
  decompose [or] C; decide_cmp; cbn; rewrite ?orb_false_r; reflexivity.
Qed.

Lemma byte_of_bits x k i :
  0 <= i -> 0 <= k ->
  Z.testbit (byte_of x k) i = (i <? 8) && Z.testbit x (i + 8 * k).
Proof.
  intros Hi Hk. unfold byte_of. change 0xff with (Z.ones 8).
  rewrite Z.land_spec, Z.shiftr_spec, Z.testbit_ones by lia.
  replace (0 <=? i) with true by (symmetry; apply Z.leb_le; lia).
  rewrite andb_true_l. apply andb_comm.
Qed.

Lemma wrap32_bits x i : Z.testbit (wrap32 x) i = (i <? 32) && Z.testbit x i.
Proof. unfold wrap32. apply Z.testbit_mod_pow2. lia. Qed.

Lemma wrap64_bits x i : Z.testbit (wrap64 x) i = (i <? 64) && Z.testbit x i.
Proof. unfold wrap64. apply Z.testbit_mod_pow2. lia. Qed.

Lemma wrap32_range x : is_u32 (wrap32 x).
Proof. unfold is_u32, wrap32. apply Z.mod_pos_bound. lia. Qed.

Lemma wrap64_range x : is_u64 (wrap64 x).
Proof. unfold is_u64, wrap64. apply Z.mod_pos_bound. lia. Qed.

Lemma wrap32_small x : is_u32 x -> wrap32 x = x.
Proof. unfold is_u32, wrap32. intros H. apply Z.mod_small. exact H. Qed.

Lemma wrap64_small x : is_u64 x -> wrap64 x = x.
Proof. unfold is_u64, wrap64. intros H. apply Z.mod_small. exact H. Qed.

Lemma wrap32_idem x : wrap32 (wrap32 x) = wrap32 x.
Proof. apply wrap32_small, wrap32_range. Qed.

Lemma wrap64_idem x : wrap64 (wrap64 x) = wrap64 x.
Proof. apply wrap64_small, wrap64_range. Qed.

(** Swapping twice gives the value back, truncated to the width. *)
Lemma bswap_32_involutive x : bswap_32 (bswap_32 x) = wrap32 x.
Proof.
  apply Z.bits_inj'. intros i Hi.
  rewrite wrap32_bits, bswap_32_bits by lia.
  assert (C : i < 8 \/ 8 <= i < 16 \/ 16 <= i < 24 \/ 24 <= i < 32 \/ 32 <= i)
    by lia.
  decompose [or] C; decide_cmp; cbn; try reflexivity;
    rewrite bswap_32_bits by lia; decide_cmp; f_equal; lia.
Qed.

Lemma bswap_64_involutive x : bswap_64 (bswap_64 x) = wrap64 x.
Proof.
  apply Z.bits_inj'. intros i Hi.
  rewrite wrap64_bits, bswap_64_bits by lia.
  assert (C : i < 8 \/ 8 <= i < 16 \/ 16 <= i < 24 \/ 24 <= i < 32 \/
              32 <= i < 40 \/ 40 <= i < 48 \/ 48 <= i < 56 \/ 56 <= i < 64 \/
              64 <= i) by lia.
  decompose [or] C; decide_cmp; cbn; try reflexivity;
    rewrite bswap_64_bits by lia; decide_cmp; f_equal; lia.
Qed.

Lemma bswap_32_wrap x : wrap32 (bswap_32 x) = bswap_32 x.
Proof.
  apply Z.bits_inj'. intros i Hi.
  rewrite wrap32_bits, bswap_32_bits by lia.
  destruct (Z.ltb_spec i 32); [reflexivity |].
  decide_cmp. reflexivity.
Qed.

Lemma bswap_64_wrap x : wrap64 (bswap_64 x) = bswap_64 x.
Proof.
  apply Z.bits_inj'. intros i Hi.
  rewrite wrap64_bits, bswap_64_bits by lia.
  destruct (Z.ltb_spec i 64); [reflexivity |].
  decide_cmp. reflexivity.
Qed.

(** ** The conversions of <endian.h> *)

Lemma htobe32_range h x : is_u32 (htobe32 h x).
Proof.
  destruct h; cbn.
  - rewrite <- bswap_32_wrap. apply wrap32_range.
  - apply wrap32_range.
Qed.

Lemma htobe64_range h x : is_u64 (htobe64 h x).
Proof.
  destruct h; cbn.
  - rewrite <- bswap_64_wrap. apply wrap64_range.
  - apply wrap64_range.
Qed.

Lemma be32toh_htobe32 h x : be32toh h (htobe32 h x) = wrap32 x.
Proof.
  unfold be32toh. destruct h; cbn.
  - rewrite bswap_32_wrap, bswap_32_involutive. apply wrap32_idem.
  - apply wrap32_idem.
Qed.

Lemma be64toh_htobe64 h x : be64toh h (htobe64 h x) = wrap64 x.
Proof.
  unfold be64toh. destruct h; cbn.
  - rewrite bswap_64_wrap, bswap_64_involutive. apply wrap64_idem.
  - apply wrap64_idem.
Qed.

Lemma byte_of_wrap32 x k : 0 <= k < 4 -> byte_of (wrap32 x) k = byte_of x k.
Proof.
  intros Hk. apply Z.bits_inj'. intros i Hi.
  rewrite !byte_of_bits, wrap32_bits by lia.
  destruct (Z.ltb_spec i 8); [| reflexivity].
  decide_cmp. reflexivity.
Qed.

Lemma byte_of_wrap64 x k : 0 <= k < 8 -> byte_of (wrap64 x) k = byte_of x k.
Proof.
  intros Hk. apply Z.bits_inj'. intros i Hi.
  rewrite !byte_of_bits, wrap64_bits by lia.
  destruct (Z.ltb_spec i 8); [| reflexivity].
  decide_cmp. reflexivity.
Qed.

Lemma byte_of_bswap_32 x k :
  0 <= k < 4 -> byte_of (bswap_32 x) k = byte_of x (3 - k).
Proof.
  intros Hk. apply Z.bits_inj'. intros i Hi.
  rewrite !byte_of_bits, bswap_32_bits by lia.
  destruct (Z.ltb_spec i 8); [| reflexivity].
  rewrite !andb_true_l.
  assert (C : k = 0 \/ k = 1 \/ k = 2 \/ k = 3) by lia.
  decompose [or] C; subst k; decide_cmp; f_equal; lia.
Qed.

Lemma byte_of_bswap_64 x k :
  0 <= k < 8 -> byte_of (bswap_64 x) k = byte_of x (7 - k).
Proof.
  intros Hk. apply Z.bits_inj'. intros i Hi.
  rewrite !byte_of_bits, bswap_64_bits by lia.
  destruct (Z.ltb_spec i 8); [| reflexivity].
  rewrite !andb_true_l.
  assert (C : k = 0 \/ k = 1 \/ k = 2 \/ k = 3 \/
              k = 4 \/ k = 5 \/ k = 6 \/ k = 7) by lia.
  decompose [or] C; subst k; decide_cmp; f_equal; lia.
Qed.

(** Whatever the host, the bytes left in memory by a converted store are
    the big-endian representation of the value. *)
Lemma bytes_of_htobe32 h x : bytes_of_u32 h (htobe32 h x) = be_bytes32 x.
Proof.
  destruct h; cbn [bytes_of_u32 htobe32]; unfold be_bytes32.
  - rewrite !byte_of_bswap_32, !byte_of_wrap32 by lia. reflexivity.
  - rewrite !byte_of_wrap32 by lia. reflexivity.
Qed.

Lemma bytes_of_htobe64 h x : bytes_of_u64 h (htobe64 h x) = be_bytes64 x.
Proof.
  destruct h; cbn [bytes_of_u64 htobe64]; unfold be_bytes64.
  - rewrite !byte_of_bswap_64, !byte_of_wrap64 by lia. reflexivity.
  - rewrite !byte_of_wrap64 by lia. reflexivity.
Qed.

Lemma byte_of_div x k : 0 <= k -> byte_of x k = (x / 2 ^ (8 * k)) mod 2 ^ 8.
Proof.
  intros Hk. unfold byte_of. change 0xff with (Z.ones 8).
  rewrite Z.land_ones, Z.shiftr_div_pow2 by lia. reflexivity.
Qed.

Lemma be_value_be_bytes32 x : be_value (be_bytes32 x) = wrap32 x.
Proof.
  unfold be_value, be_bytes32, wrap32. cbn [fold_left].
  rewrite !byte_of_div by lia.
  change (2 ^ (8 * 0)) with 1. change (2 ^ (8 * 1)) with 256.
  change (2 ^ (8 * 2)) with 65536. change (2 ^ (8 * 3)) with 16777216.
  change (2 ^ 8) with 256. change (2 ^ 32) with 4294967296.
  Z.div_mod_to_equations. lia.
Qed.

Lemma be_value_be_bytes64 x : be_value (be_bytes64 x) = wrap64 x.
Proof.
  unfold be_value, be_bytes64, wrap64. cbn [fold_left].
  rewrite !byte_of_div by lia.
  change (2 ^ (8 * 0)) with 1. change (2 ^ (8 * 1)) with 256.
  change (2 ^ (8 * 2)) with 65536. change (2 ^ (8 * 3)) with 16777216.
  change (2 ^ (8 * 4)) with 4294967296.
  change (2 ^ (8 * 5)) with 1099511627776.
  change (2 ^ (8 * 6)) with 281474976710656.
  change (2 ^ (8 * 7)) with 72057594037927936.
  change (2 ^ 8) with 256. change (2 ^ 64) with 18446744073709551616.
  Z.div_mod_to_equations. lia.
Qed.

(** ** The sub-word accessors on a field that fits *)

Lemma size_mask_ones w : 0 <= w < 32 -> size_mask w = Some (Z.ones w).
Proof.
  intros Hw. unfold size_mask, shl32.
  replace ((0 <=? w) && (w <? 32)) with true
    by (symmetry; apply andb_true_iff; split;
        [apply Z.leb_le | apply Z.ltb_lt]; lia).
  cbn [obind]. f_equal.
  rewrite Z.shiftl_1_l, Z.ones_equiv.
  assert (0 < 2 ^ w) by (apply Z.pow_pos_nonneg; lia).
  assert (2 ^ w < 2 ^ 32) by (apply Z.pow_lt_mono_r; lia).
  rewrite (wrap32_small (2 ^ w)) by (unfold is_u32; lia).
  apply wrap32_small. unfold is_u32. lia.
Qed.

Lemma size_mask_defined w : size_mask w <> None <-> 0 <= w < 32.
Proof.
  split.
  - unfold size_mask, shl32.
    destruct (Z.leb_spec 0 w), (Z.ltb_spec w 32); cbn; intros Hdef; try lia;
      exfalso; apply Hdef; reflexivity.
  - intros H. rewrite size_mask_ones by exact H. discriminate.
Qed.

Lemma shl32_defined a n :
  0 <= n < 32 -> shl32 a n = Some (wrap32 (Z.shiftl a n)).
Proof.
  intros Hn. unfold shl32.
  replace ((0 <=? n) && (n <? 32)) with true
    by (symmetry; apply andb_true_iff; split;
        [apply Z.leb_le | apply Z.ltb_lt]; lia).
  reflexivity.
Qed.

Lemma shr32_defined a n : 0 <= n < 32 -> shr32 a n = Some (Z.shiftr a n).
Proof.
  intros Hn. unfold shr32.
  replace ((0 <=? n) && (n <? 32)) with true
    by (symmetry; apply andb_true_iff; split;
        [apply Z.leb_le | apply Z.ltb_lt]; lia).
  reflexivity.
Qed.

Lemma fitsb_fits REG : fitsb REG = true <-> fits REG.
Proof.
  unfold fitsb, fits. rewrite !andb_true_iff, !Z.leb_le. tauto.
Qed.

Section FieldFits.

Variable h : byte_order.
Variable REG : field.
Hypothesis Hfits : fits REG.

Let w := width REG.
Let s := 31 - offset REG.

Lemma getnn_fits st :
  getnn h REG st = Some (Z.land (Z.shiftr (get32 h st) s) (Z.ones w)).
Proof.
  destruct Hfits as [Hw Ho]. unfold getnn, mask.
  rewrite size_mask_ones by lia. cbn [obind].
  rewrite shr32_defined by lia. reflexivity.
Qed.

Lemma unget32_fits st :
  unget32 h REG st =
  Some (Z.land (get32 h st) (not32 (wrap32 (Z.shiftl (Z.ones w) s)))).
Proof.
  destruct Hfits as [Hw Ho]. unfold unget32, mask.
  rewrite size_mask_ones by lia. cbn [obind].
  rewrite shl32_defined by lia. reflexivity.
Qed.

Lemma putnn_fits st X :
  putnn h REG st X =
  Some (htobe32 h
          (Z.lor (Z.land (get32 h st) (not32 (wrap32 (Z.shiftl (Z.ones w) s))))
                 (wrap32 (Z.shiftl (Z.land X (Z.ones w)) s)))).
Proof.
  destruct Hfits as [Hw Ho]. unfold putnn. rewrite unget32_fits.
  cbn [obind]. unfold mask. rewrite size_mask_ones by lia. cbn [obind].
  rewrite shl32_defined by lia. reflexivity.
Qed.

End FieldFits.

(** The bit-vector identities behind the accessors; [g] is the register
    in register order, [s] the shift [31 - offset]. *)
Lemma field_insert_extract g v w s :
  0 <= s -> 0 <= w -> s + w <= 32 ->
  Z.land
    (Z.shiftr
       (wrap32 (Z.lor (Z.land g (not32 (wrap32 (Z.shiftl (Z.ones w) s))))
                      (wrap32 (Z.shiftl (Z.land v (Z.ones w)) s)))) s)
    (Z.ones w) = v mod 2 ^ w.
Proof. intros Hs Hw Hsw. unfold not32, wrap32. Z.bitblast. Qed.

Lemma field_clear_bits g w s i :
  0 <= s -> 0 <= w -> s + w <= 32 -> 0 <= i -> 0 <= g < 2 ^ 32 ->
  Z.testbit (Z.land g (not32 (wrap32 (Z.shiftl (Z.ones w) s)))) i =
  if (s <=? i) && (i <? s + w) then false else Z.testbit g i.
Proof.
  intros Hs Hw Hsw Hi Hg. unfold not32, wrap32.
  assert (Hhigh : 32 <= i -> Z.testbit g i = false).
  { intros Hge. rewrite <- (Z.mod_small g (2 ^ 32)) by exact Hg.
    apply Z.mod_pow2_bits_high. lia. }
  rewrite Z.land_spec, Z.testbit_mod_pow2, Z.lnot_spec, Z.testbit_mod_pow2,
    Z.shiftl_spec, Z.testbit_ones by lia.
  destruct (Z.leb_spec s i), (Z.ltb_spec i (s + w)), (Z.ltb_spec i 32),
    (Z.leb_spec 0 (i - s)), (Z.ltb_spec (i - s) w); try lia; cbn;
    rewrite ?andb_false_r, ?andb_true_r; try reflexivity.
  all: symmetry; apply Hhigh; lia.
Qed.

Lemma field_insert_lor g v w s :
  0 <= s -> 0 <= w -> s + w <= 32 -> 0 <= g < 2 ^ 32 ->
  wrap32 (Z.lor (Z.land g (not32 (wrap32 (Z.shiftl (Z.ones w) s))))
                (wrap32 (Z.shiftl (Z.land v (Z.ones w)) s))) =
  Z.lor (Z.land g (not32 (wrap32 (Z.shiftl (Z.ones w) s))))
        (Z.shiftl (v mod 2 ^ w) s).
Proof.
  intros Hs Hw Hsw Hg. rewrite Z.land_ones by lia.
  unfold not32, wrap32. Z.bitblast.
Qed.

Lemma get32_range h st : 0 <= get32 h st < 2 ^ 32.
Proof. unfold get32, be32toh. apply htobe32_range. Qed.

Lemma get32_htobe32 h x : get32 h (htobe32 h x) = wrap32 x.
Proof. unfold get32. apply be32toh_htobe32. Qed.

Lemma in_field_dec REG i :
  in_field REG i \/ ~ in_field REG i.
Proof. unfold in_field. lia. Qed.

(** On a field that fits, [getnn] reads back what [putnn] packed. *)
Lemma putnn_getnn_fits h REG st v :
  fits REG ->
  (st' <- putnn h REG st v ;; getnn h REG st') = Some (v mod 2 ^ width REG).
Proof.
  intros Hfits.
  rewrite (putnn_fits h _ Hfits). cbn [obind].
  rewrite (getnn_fits h _ Hfits), get32_htobe32.
  f_equal. destruct Hfits. apply field_insert_extract; lia.
Qed.

(** ** C1: pack then unpack *)

(** C1, as the specification words it, at the field of width 2 whose
    offset is 0 (so that offset + width <= 32) and the value 3: the field
    would need bit 32 of the word, [putnn] keeps bit 0 of the value only
    and [getnn] reads back 1, not 3 mod 2^2. *)
Lemma C1_counterexample :
  (1 <= 2 <= 32 /\ 0 <= 0 /\ 0 + 2 <= 32 /\ is_u32 0) /\
  pack_unpack BigEndian 0 2 0 3 = Some 1 /\
  ~ roundtrip_at BigEndian 0 2 0 3.
Proof.
  split; [| split].
  - unfold is_u32. lia.
  - reflexivity.
  - unfold roundtrip_at. vm_compute. discriminate.
Qed.

(** C1 (amended): for every host byte order, every field of width [w] in
    [1,31] whose right-most bit position [o] (most significant bit
    numbered 0) satisfies [w - 1 <= o <= 31], every 32-bit stored word and
    every value [v], [getnn] of the register assigned by [putnn] is
    defined and equals [v mod 2^w]. *)
Theorem C1_putnn_getnn_roundtrip (h : byte_order) (o w st v : Z) :
  1 <= w <= 31 -> w - 1 <= o <= 31 -> is_u32 st ->
  roundtrip_at h o w st v.
Proof.
  intros Hw Ho Hst. unfold roundtrip_at, pack_unpack.
  apply (putnn_getnn_fits h (mkfield w o)).
  unfold fits. cbn. lia.
Qed.

Lemma C1_putnn_getnn_roundtrip_witness :
  (1 <= 8 <= 31 /\ 8 - 1 <= 23 <= 31 /\ is_u32 0x80001203) /\
  roundtrip_at LittleEndian 23 8 0x80001203 0x1c0.
Proof.
  split; [unfold is_u32; lia |].
  apply C1_putnn_getnn_roundtrip; unfold is_u32; lia.
Defined.

(** Every field the header declares fits its word, so the round trip
    holds for each of them. *)
Lemma declared_fields_fit : Forall fits declared_fields.
Proof.
  apply Forall_forall. intros REG HIn. apply fitsb_fits.
  revert REG HIn. apply Forall_forall.
  repeat constructor.
Qed.

Lemma declared_fields_roundtrip h REG st v :
  In REG declared_fields ->
  (st' <- putnn h REG st v ;; getnn h REG st') = Some (v mod 2 ^ width REG).
Proof.
  intros HIn. apply putnn_getnn_fits.
  exact (proj1 (Forall_forall _ _) declared_fields_fit REG HIn).
Qed.

(** The same fields, named by the position [p] of their left-most bit
    (most significant bit numbered 0): the field of width [w] that starts
    at [p] has offset [p + w - 1], and fits when [p + w <= 32]. *)
Lemma roundtrip_from_left_position h p w st v :
  1 <= w <= 31 -> 0 <= p -> p + w <= 32 ->
  roundtrip_at h (p + w - 1) w st v.
Proof.
  intros Hw Hp Hpw. unfold roundtrip_at, pack_unpack.
  apply (putnn_getnn_fits h (mkfield w (p + w - 1))).
  unfold fits. cbn. lia.
Qed.

(** Width 32 is outside the macros: [size_mask(32)] shifts [1U] by the
    width of its type. *)
Lemma width_32_undefined h o st v :
  getnn h (mkfield 32 o) st = None /\ putnn h (mkfield 32 o) st v = None.
Proof. split; reflexivity. Qed.

(** ** C2: what [putnn] changes *)

(** C2, as the specification words it, at the same field (offset 0,
    width 2) on the all-ones register and the value 3: [unget32] zeroes
    bit 31 only, one bit instead of two, because the second bit of the
    field would be bit 32; and the value OR-ed in is cut to its low
    bit. *)
Lemma C2_counterexample :
  (1 <= 2 <= 32 /\ 0 <= 0 /\ 0 + 2 <= 32 /\ is_u32 0xffffffff) /\
  unget32 BigEndian (mkfield 2 0) 0xffffffff = Some 0x7fffffff /\
  putnn BigEndian (mkfield 2 0) 0 3 = Some 0x80000000 /\
  ~ frame_at BigEndian 0 2 0xffffffff 3.
Proof.
  split; [unfold is_u32; lia |].
  split; [reflexivity |]. split; [reflexivity |].
  intros (cl & st' & _ & _ & Hzero & _).
  destruct (Hzero 32) as [Hpos _].
  - unfold in_field. cbn. lia.
  - lia.
Qed.

(** C2 (amended): for every host byte order, every field of width [w] in
    [1,31] with right-most bit position [o], [w - 1 <= o <= 31], every
    32-bit stored word and every value [v]: [unget32] zeroes the [w] bits
    of the field, bits [31-o .. 31-o+w-1] counted from the least
    significant bit of the register, and no other bit; [putnn] assigns
    that value with [v mod 2^w] OR-ed in at the field; and every bit of
    the register outside the field is left as it was. *)
Theorem C2_putnn_frame (h : byte_order) (o w st v : Z) :
  1 <= w <= 31 -> w - 1 <= o <= 31 -> is_u32 st ->
  frame_at h o w st v.
Proof.
  intros Hw Ho Hst.
  assert (Hfits : fits (mkfield w o)) by (unfold fits; cbn; lia).
  unfold frame_at. cbv zeta.
  rewrite (unget32_fits h _ Hfits), (putnn_fits h _ Hfits).
  cbn [width offset].
  pose proof (get32_range h st) as Hg.
  set (g := get32 h st) in *.
  set (s := 31 - o).
  set (cl := Z.land g (not32 (wrap32 (Z.shiftl (Z.ones w) s)))).
  assert (Hcl : forall i, 0 <= i ->
            Z.testbit cl i =
            if (s <=? i) && (i <? s + w) then false else Z.testbit g i).
  { intros i Hi. apply field_clear_bits; lia. }
  assert (Hnew : get32 h (htobe32 h (Z.lor cl
                    (wrap32 (Z.shiftl (Z.land v (Z.ones w)) s)))) =
                 Z.lor cl (Z.shiftl (v mod 2 ^ w) s)).
  { rewrite get32_htobe32. apply field_insert_lor; lia. }
  exists cl, (htobe32 h (Z.lor cl (wrap32 (Z.shiftl (Z.land v (Z.ones w)) s)))).
  split; [reflexivity |]. split; [reflexivity |].
  split; [| split; [| split]].
  - intros i Hin. unfold in_field in Hin. cbn [width offset] in Hin.
    split; [lia |]. rewrite Hcl by lia.
    replace ((s <=? i) && (i <? s + w)) with true; [reflexivity |].
    symmetry. apply andb_true_iff. split; [apply Z.leb_le | apply Z.ltb_lt]; lia.
  - intros i Hi Hout. unfold in_field in Hout. cbn [width offset] in Hout.
    rewrite Hcl by lia.
    destruct (Z.leb_spec s i), (Z.ltb_spec i (s + w)); cbn; try reflexivity.
    exfalso. apply Hout. lia.
  - exact Hnew.
  - intros i Hi Hout. unfold in_field in Hout. cbn [width offset] in Hout.
    rewrite Hnew, Z.lor_spec, Hcl by lia.
    assert (Hv : Z.testbit (Z.shiftl (v mod 2 ^ w) s) i = false).
    { destruct (Z.ltb_spec i s).
      - apply Z.shiftl_spec_low. lia.
      - rewrite Z.shiftl_spec by lia. apply Z.mod_pow2_bits_high. lia. }
    rewrite Hv, orb_false_r.
    destruct (Z.leb_spec s i), (Z.ltb_spec i (s + w)); cbn; try reflexivity.
    exfalso. apply Hout. lia.
Qed.

Lemma C2_putnn_frame_witness :
  (1 <= 8 <= 31 /\ 8 - 1 <= 23 <= 31 /\ is_u32 0x80001203) /\
  frame_at LittleEndian 23 8 0x80001203 0x1c0.
Proof.
  split; [unfold is_u32; lia |].
  apply C2_putnn_frame; unfold is_u32; lia.
Defined.

(** ** C3: every accessor converts to and from big-endian *)

Lemma bytes_of_u32_be h st : bytes_of_u32 h st = be_bytes32 (be32toh h st).
Proof.
  unfold be32toh, be_bytes32. destruct h; cbn [bytes_of_u32 htobe32].
  - rewrite !byte_of_bswap_32, !byte_of_wrap32 by lia. reflexivity.
  - rewrite !byte_of_wrap32 by lia. reflexivity.
Qed.

Lemma bytes_of_u64_be h st : bytes_of_u64 h st = be_bytes64 (be64toh h st).
Proof.
  unfold be64toh, be_bytes64. destruct h; cbn [bytes_of_u64 htobe64].
  - rewrite !byte_of_bswap_64, !byte_of_wrap64 by lia. reflexivity.
  - rewrite !byte_of_wrap64 by lia. reflexivity.
Qed.

Lemma get32_be_value h st : get32 h st = be_value (bytes_of_u32 h st).
Proof.
  rewrite bytes_of_u32_be, be_value_be_bytes32.
  symmetry. apply wrap32_small. apply htobe32_range.
Qed.

Lemma get64_be_value h st : get64 h st = be_value (bytes_of_u64 h st).
Proof.
  rewrite bytes_of_u64_be, be_value_be_bytes64.
  symmetry. apply wrap64_small. apply htobe64_range.
Qed.

Lemma same_memory32_get32 h1 h2 st1 st2 :
  same_memory32 h1 h2 st1 st2 -> get32 h1 st1 = get32 h2 st2.
Proof.
  unfold same_memory32. intros Hmem.
  rewrite !get32_be_value, Hmem. reflexivity.
Qed.

Lemma loads_are_big_endian : loads_big_endian.
Proof.
  split; [exact get32_be_value |].
  split; [exact get64_be_value |].
  split.
  - intros h1 h2 st1 st2 REG Hmem.
    pose proof (same_memory32_get32 _ _ _ _ Hmem) as Hget.
    split; [exact Hget |].
    unfold getnn, unget32. unfold get32 in *. rewrite Hget.
    split; reflexivity.
  - intros h1 h2 st1 st2 Hmem. unfold same_memory64 in Hmem.
    rewrite !get64_be_value, Hmem. reflexivity.
Qed.

Lemma stores_are_big_endian : stores_big_endian.
Proof.
  split; [intros h X; apply bytes_of_htobe32 |].
  split; [intros h X; apply bytes_of_htobe64 |].
  split.
  - intros h1 h2 st1 st2 REG X Hmem.
    destruct loads_are_big_endian as (_ & _ & Hload & _).
    destruct (Hload h1 h2 st1 st2 REG Hmem) as (_ & _ & Hun).
    unfold putnn. rewrite Hun.
    destruct (unget32 h2 REG st2) as [u |]; cbn [obind]; [| reflexivity].
    destruct (mask REG) as [m |]; cbn [obind]; [| reflexivity].
    destruct (shl32 (Z.land X m) (31 - offset REG)) as [f |]; cbn [obind];
      [| reflexivity].
    cbn [option_map]. rewrite !bytes_of_htobe32. reflexivity.
  - intros h1 h2 ST1 ST2. destruct h1, h2; reflexivity.
Qed.

Lemma getnn_be_getnn h REG st :
  getnn h REG st = be_getnn REG (bytes_of_u32 h st).
Proof.
  unfold getnn, be_getnn. rewrite <- get32_be_value. reflexivity.
Qed.

Lemma unget32_be_unget32 h REG st :
  unget32 h REG st = be_unget32 REG (bytes_of_u32 h st).
Proof.
  unfold unget32, be_unget32. rewrite <- get32_be_value. reflexivity.
Qed.

Lemma putnn_be_putnn h REG st X :
  option_map (bytes_of_u32 h) (putnn h REG st X)
  = be_putnn REG (bytes_of_u32 h st) X.
Proof.
  unfold putnn, be_putnn. rewrite unget32_be_unget32.
  destruct (be_unget32 REG (bytes_of_u32 h st)) as [u |]; cbn [obind];
    [| reflexivity].
  destruct (mask REG) as [m |]; cbn [obind]; [| reflexivity].
  destruct (shl32 (Z.land X m) (31 - offset REG)) as [f |]; cbn [obind];
    [| reflexivity].
  cbn [option_map]. rewrite bytes_of_htobe32. reflexivity.
Qed.

Lemma subword_accessors_big_endian : subword_big_endian.
Proof.
  intros h REG st X. unfold getpnn, ungetp32, putpnn.
  repeat split;
    first [ apply getnn_be_getnn | apply unget32_be_unget32
          | apply putnn_be_putnn ].
Qed.

Lemma pointer_forms_are_big_endian : pointer_forms_big_endian.
Proof.
  intros h st X. unfold getp32, getp64, putp32, putp64.
  split; [apply get32_be_value |]. split; [apply get64_be_value |].
  split; [apply bytes_of_htobe32 | apply bytes_of_htobe64].
Qed.

(** C3: for every host byte order, every 32-bit value [v] and every
    64-bit value [u], [put32] (resp. [put64]) leaves the big-endian byte
    representation of [v] (resp. [u]) in the register and [get32] (resp.
    [get64]) of it returns [v] (resp. [u]); every whole-word load is the
    big-endian reading of the bytes in memory and every store leaves
    bytes that do not depend on the host; and every sub-word accessor
    ([getnn], [unget32], [putnn]) and every pointer form is the
    big-endian accessor on the bytes in memory: [getnn] extracts the
    field from the big-endian reading, [putnn] leaves the big-endian
    representation of the register with the field replaced.  No accessor
    loads or stores in the byte order of the host. *)
Theorem C3_accessors_big_endian (h : byte_order) (v u : Z) :
  is_u32 v -> is_u64 u ->
  (bytes_of_u32 h (put32 h v) = be_bytes32 v /\ get32 h (put32 h v) = v) /\
  (bytes_of_u64 h (put64 h u) = be_bytes64 u /\ get64 h (put64 h u) = u) /\
  loads_big_endian /\ stores_big_endian /\
  subword_big_endian /\ pointer_forms_big_endian.
Proof.
  intros Hv Hu. split; [| split; [| split; [| split; [| split]]]].
  - split; [apply bytes_of_htobe32 |].
    unfold put32. rewrite get32_htobe32. apply wrap32_small, Hv.
  - split; [apply bytes_of_htobe64 |].
    unfold put64, get64. rewrite be64toh_htobe64. apply wrap64_small, Hu.
  - exact loads_are_big_endian.
  - exact stores_are_big_endian.
  - exact subword_accessors_big_endian.
  - exact pointer_forms_are_big_endian.
Qed.

Lemma C3_accessors_big_endian_witness :
  (is_u32 0x11223344 /\ is_u64 0x0102030405060708) /\
  (bytes_of_u32 LittleEndian (put32 LittleEndian 0x11223344)
     = be_bytes32 0x11223344 /\
   get32 LittleEndian (put32 LittleEndian 0x11223344) = 0x11223344) /\
  (bytes_of_u64 LittleEndian (put64 LittleEndian 0x0102030405060708)
     = be_bytes64 0x0102030405060708 /\
   get64 LittleEndian (put64 LittleEndian 0x0102030405060708)
     = 0x0102030405060708) /\
  loads_big_endian /\ stores_big_endian /\
  subword_big_endian /\ pointer_forms_big_endian.
Proof.
  split; [unfold is_u32, is_u64; lia |].
  apply C3_accessors_big_endian; [unfold is_u32 | unfold is_u64]; lia.
Defined.

(** On a little-endian host the field [csb_cc] of the word stored as
    bytes [00 2a 40 00] is the third byte of memory, and [putnn] of 0x40
    into [gzip_fc] of a zero word leaves [00 00 00 40] in memory. *)
Example getnn_reads_memory_big_endian :
  bytes_of_u32 LittleEndian 0x00402a00 = [0x00; 0x2a; 0x40; 0x00] /\
  getnn LittleEndian csb_cc 0x00402a00 = Some 0x40 /\
  be_getnn csb_cc [0x00; 0x2a; 0x40; 0x00] = Some 0x40 /\
  option_map (bytes_of_u32 LittleEndian) (putnn LittleEndian gzip_fc 0 0x40)
    = Some [0x00; 0x00; 0x00; 0x40].
Proof. repeat split. Qed.

Example show_int_examples :
  show_int 42 = "42"%string /\ show_int 0 = "0"%string /\
  show_int (-7) = "-7"%string.
Proof. repeat split. Qed.

Example crc32_check :
  Checksum.crc32 (Checksum.bytes_of_string "123456789") = 0xcbf43926.
Proof. vm_compute. reflexivity. Qed.

Example adler32_check :
  Checksum.adler32 (Checksum.bytes_of_string "Wikipedia") = 0x11e60398.
Proof. vm_compute. reflexivity. Qed.

(** ** C4: the completion-extension predicates *)

Lemma holds_double_not y : holds (c_not (c_not y)) <-> y <> 0.
Proof.
  unfold holds, c_not. destruct (Z.eqb_spec y 0) as [-> | Hy]; cbn; lia.
Qed.

Lemma holds_not y : holds (c_not y) <-> ~ holds y.
Proof.
  unfold holds, c_not. destruct (Z.eqb_spec y 0) as [-> | Hy]; cbn; lia.
Qed.

Lemma land_pow2 X k :
  0 <= k -> Z.land X (2 ^ k) = if Z.testbit X k then 2 ^ k else 0.
Proof.
  intros Hk. apply Z.bits_inj'. intros i Hi.
  rewrite Z.land_spec, Z.pow2_bits_eqb by lia.
  destruct (Z.eqb_spec k i) as [-> | Hne].
  - destruct (Z.testbit X i); cbn.
    + rewrite Z.pow2_bits_eqb, Z.eqb_refl by lia. reflexivity.
    + rewrite Z.bits_0. reflexivity.
  - rewrite andb_false_r. destruct (Z.testbit X k).
    + rewrite Z.pow2_bits_eqb by lia.
      symmetry. apply Z.eqb_neq. exact Hne.
    + rewrite Z.bits_0. reflexivity.
Qed.

Lemma flag_test X F k :
  0 <= k -> F = 2 ^ k -> (holds (c_not (c_not (Z.land X F))) <-> flag_set X F).
Proof.
  intros Hk ->. rewrite holds_double_not. unfold flag_set.
  rewrite Z.log2_pow2, land_pow2 by lia.
  assert (0 < 2 ^ k) by (apply Z.pow_pos_nonneg; lia).
  destruct (Z.testbit X k); split; intros; try lia; try reflexivity;
    discriminate.
Qed.

Lemma csb_ce_termination_flag X :
  holds (csb_ce_termination X) <-> flag_set X CSB_CE_TERMINATE.
Proof. apply (flag_test X CSB_CE_TERMINATE 1); [lia | reflexivity]. Qed.

Lemma csb_ce_partial_flag X :
  holds (csb_ce_partial_completion X) <-> flag_set X CSB_CE_PARTIAL.
Proof. apply (flag_test X CSB_CE_PARTIAL 2); [lia | reflexivity]. Qed.

Lemma csb_ce_tpbc_valid_flag X :
  holds (csb_ce_tpbc_valid X) <-> flag_set X CSB_CE_TPBC_VALID.
Proof. apply (flag_test X CSB_CE_TPBC_VALID 0); [lia | reflexivity]. Qed.

(** C4: for every completion-extension value [X] (in particular every
    8-bit one): [csb_ce_termination] holds iff the terminate flag 0x2 is
    set; [csb_ce_partial_completion] holds iff the partial flag 0x4 is
    set and [csb_ce_full_completion] holds iff it is not;
    [csb_ce_tpbc_valid] holds iff the flag 0x1 is set; and exactly one of
    terminated, not terminated and partial, not terminated and full
    holds. *)
Theorem C4_completion_extension_partition (X : Z) :
  (holds (csb_ce_termination X) <-> flag_set X CSB_CE_TERMINATE) /\
  (holds (csb_ce_partial_completion X) <-> flag_set X CSB_CE_PARTIAL) /\
  (holds (csb_ce_full_completion X) <-> ~ flag_set X CSB_CE_PARTIAL) /\
  (holds (csb_ce_tpbc_valid X) <-> flag_set X CSB_CE_TPBC_VALID) /\
  exactly_one
    (holds (csb_ce_termination X))
    (holds (csb_ce_check_completion X) /\ holds (csb_ce_partial_completion X))
    (holds (csb_ce_check_completion X) /\ holds (csb_ce_full_completion X)).
Proof.
  pose proof (csb_ce_termination_flag X) as HT.
  pose proof (csb_ce_partial_flag X) as HP.
  pose proof (csb_ce_tpbc_valid_flag X) as HV.
  assert (HF : holds (csb_ce_full_completion X) <-> ~ flag_set X CSB_CE_PARTIAL).
  { unfold csb_ce_full_completion. rewrite holds_not, HP. reflexivity. }
  assert (HC : holds (csb_ce_check_completion X)
               <-> ~ holds (csb_ce_termination X)).
  { unfold csb_ce_check_completion. apply holds_not. }
  repeat split; try tauto.
  unfold exactly_one, flag_set in *.
  destruct (Z.testbit X (Z.log2 CSB_CE_TERMINATE)),
    (Z.testbit X (Z.log2 CSB_CE_PARTIAL));
    intuition congruence.
Qed.

(** ** C5: [csb_ce_cc64] *)

Lemma cc64_flags_clear_spec X :
  holds (cc64_flags_clear X)
  <-> ~ flag_set X CSB_CE_PARTIAL /\ ~ flag_set X CSB_CE_TERMINATE.
Proof.
  unfold cc64_flags_clear, holds, c_eq, flag_set.
  change (Z.log2 CSB_CE_PARTIAL) with 2.
  change (Z.log2 CSB_CE_TERMINATE) with 1.
  change (Z.lor CSB_CE_PARTIAL CSB_CE_TERMINATE) with (Z.lor (2 ^ 2) (2 ^ 1)).
  rewrite Z.land_lor_distr_r, !land_pow2 by lia.
  destruct (Z.testbit X 2), (Z.testbit X 1); cbn; intuition congruence.
Qed.

(** C5: the macro as written never evaluates to true: the comparison
    [== 0] is applied to the constant [CSB_CE_PARTIAL | CSB_CE_TERMINATE]
    before the [&], so the result is [X & 0].  At [X = 0] and [X = 1]
    both flags are clear and the macro yields 0. *)
Theorem C5_csb_ce_cc64_never_true :
  (forall X, csb_ce_cc64 X = 0) /\
  (holds (cc64_flags_clear 0) /\ ~ holds (csb_ce_cc64 0)) /\
  (holds (cc64_flags_clear 1) /\ ~ holds (csb_ce_cc64 1)).
Proof.
  split; [| split].
  - intros X. unfold csb_ce_cc64. cbn. apply Z.land_0_r.
  - unfold holds. cbn. split; [discriminate | intros H; apply H; reflexivity].
  - unfold holds. cbn. split; [discriminate | intros H; apply H; reflexivity].
Qed.

(** ** C6: the non-resume seeds *)

(** C6: [INIT_CRC] is the CRC-32 of the empty input, 0; [INIT_ADLER] is
    the Adler-32 of the empty input, 1; the two seeds differ. *)
Theorem C6_init_seeds :
  INIT_CRC = Checksum.crc32 [] /\ INIT_CRC = 0 /\
  INIT_ADLER = Checksum.adler32 [] /\ INIT_ADLER = 1 /\
  INIT_CRC <> INIT_ADLER.
Proof.
  repeat split. unfold INIT_CRC, INIT_ADLER. discriminate.
Qed.

(** ** C7: the function codes that count symbols *)

Lemma function_codes_complete : forall c : function_code, In c function_codes.
Proof. intros c. destruct c; cbn; tauto. Qed.

Lemma fc_value_injective c1 c2 : fc_value c1 = fc_value c2 -> c1 = c2.
Proof. destruct c1, c2; cbn; intros H; try reflexivity; discriminate. Qed.

(** C7: over the thirteen function codes, [fc_has_count] is true for
    exactly the four compression count variants, and false for every
    decompression code and for [GZIP_FC_WRAP]: no code of the table
    counts symbols while decompressing or wrapping. *)
Theorem C7_fc_has_count_table (c : function_code) :
  (holds (fc_has_count (fc_value c)) <-> In c count_variants) /\
  (fc_operation c = Decompress \/ fc_operation c = Wrap ->
   fc_has_count (fc_value c) = 0) /\
  (In c count_variants -> fc_operation c = Compress) /\
  List.length count_variants = 4%nat.
Proof.
  unfold holds.
  destruct c; cbn; repeat split; intros; try reflexivity; try lia;
    try discriminate; intuition (try discriminate; try lia).
Qed.

Lemma C7_fc_has_count_table_witness :
  (fc_operation GZIP_FC_DECOMPRESS_RESUME = Decompress \/
   fc_operation GZIP_FC_DECOMPRESS_RESUME = Wrap) /\
  fc_has_count (fc_value GZIP_FC_DECOMPRESS_RESUME) = 0.
Proof.
  split; [left; reflexivity |].
  apply (C7_fc_has_count_table GZIP_FC_DECOMPRESS_RESUME).
  left. reflexivity.
Defined.

(** The byte-count-limit bit does not change the answer. *)
Lemma fc_has_count_limit_bit c :
  fc_has_count (Z.lor (fc_value c) GZIP_FC_LIMIT_MASK)
  = fc_has_count (fc_value c).
Proof. destruct c; reflexivity. Qed.

(** ** C8: the cached timebase frequency *)

Section TimebaseFacts.

Variable hw : nat -> Z.

Lemma nx_get_freq_cached w :
  tb_freq w <> 0 -> nx_get_freq hw w = (tb_freq w, w).
Proof.
  intros Hnz. unfold nx_get_freq.
  destruct (Z.eqb_spec (tb_freq w) 0) as [Hz | _]; [contradiction | reflexivity].
Qed.

Lemma nx_get_freq_returns_cache w :
  fst (nx_get_freq hw w) = tb_freq (snd (nx_get_freq hw w)).
Proof.
  unfold nx_get_freq. destruct (tb_freq w =? 0); reflexivity.
Qed.

Lemma nx_get_freq_calls_cached n w :
  tb_freq w <> 0 -> nx_get_freq_calls hw n w = (repeat (tb_freq w) n, w).
Proof.
  intros Hnz. induction n as [| n IH]; cbn [nx_get_freq_calls repeat].
  - reflexivity.
  - rewrite nx_get_freq_cached by exact Hnz. rewrite IH. reflexivity.
Qed.

End TimebaseFacts.

Lemma nx_get_freq_first_read hw w :
  tb_freq w = 0 ->
  nx_get_freq hw w
  = (wrap64 (hw (hw_reads w)),
     mkworld (wrap64 (hw (hw_reads w))) (S (hw_reads w))).
Proof.
  intros Hz. unfold nx_get_freq. rewrite Hz. reflexivity.
Qed.

(** C8: whatever the platform answers, [nx_get_freq] calls
    [__ppc_get_timebase_freq] exactly when [tb_freq] is zero, and then it
    stores the platform's answer in [tb_freq] and returns it; when
    [tb_freq] is not zero it returns [tb_freq] and leaves the world as it
    is; the value returned is the value cached; once a call has returned
    (and so stored) a nonzero frequency, any number of further calls
    return that value and read the platform no more; so from an empty
    cache, when the platform's answer is not zero, any number of calls
    all return that answer and the platform is read once. *)
Theorem C8_nx_get_freq_caches (hw : nat -> Z) (w : world) :
  hw_reads (snd (nx_get_freq hw w))
    = (if tb_freq w =? 0 then S (hw_reads w) else hw_reads w) /\
  (tb_freq w <> 0 -> nx_get_freq hw w = (tb_freq w, w)) /\
  fst (nx_get_freq hw w) = tb_freq (snd (nx_get_freq hw w)) /\
  (forall f w1,
      nx_get_freq hw w = (f, w1) -> f <> 0 ->
      forall n, nx_get_freq_calls hw n w1 = (repeat f n, w1)) /\
  (tb_freq w = 0 ->
   nx_get_freq hw w
   = (wrap64 (hw (hw_reads w)),
      mkworld (wrap64 (hw (hw_reads w))) (S (hw_reads w)))) /\
  (tb_freq w = 0 -> wrap64 (hw (hw_reads w)) <> 0 ->
   forall n,
     nx_get_freq_calls hw (S n) w
     = (repeat (wrap64 (hw (hw_reads w))) (S n),
        mkworld (wrap64 (hw (hw_reads w))) (S (hw_reads w)))).
Proof.
  split; [| split; [| split; [| split; [| split]]]].
  - unfold nx_get_freq. destruct (tb_freq w =? 0); reflexivity.
  - apply nx_get_freq_cached.
  - apply nx_get_freq_returns_cache.
  - intros f w1 Hcall Hf n.
    pose proof (nx_get_freq_returns_cache hw w) as Hret.
    rewrite Hcall in Hret. cbn in Hret. subst f.
    apply nx_get_freq_calls_cached. exact Hf.
  - apply nx_get_freq_first_read.
  - intros Hz Hnz n. cbn [nx_get_freq_calls repeat].
    rewrite nx_get_freq_first_read by exact Hz.
    rewrite nx_get_freq_calls_cached by exact Hnz. reflexivity.
Qed.

Example nx_get_freq_first_use :
  nx_get_freq_calls (fun _ => 512000000) 3 (mkworld 0 0)
  = ([512000000; 512000000; 512000000], mkworld 512000000 1).
Proof. reflexivity. Qed.

(** A platform that answers 0 is asked again at every call. *)
Example nx_get_freq_zero_answer :
  nx_get_freq_calls (fun k => if (k <? 2)%nat then 0 else 512000000) 4
    (mkworld 0 0)
  = ([0; 0; 512000000; 512000000], mkworld 512000000 3).
Proof. reflexivity. Qed.

(** ** C10: [nx_time_diff] *)

(** C10: for 64-bit [t1] and [t2], [nx_time_diff t1 t2] is [t2 - t1]
    when [t2 >= t1]; when [t2 < t1] it is [(0xFFFFFFFFFFFFFFF - t1) + t2]
    modulo 2^64, where the constant is 2^60 - 1, and that is never the
    modular difference [(t2 - t1) mod 2^64]. *)
Theorem C10_nx_time_diff (t1 t2 : Z) :
  is_u64 t1 -> is_u64 t2 ->
  (t2 >= t1 -> nx_time_diff t1 t2 = t2 - t1) /\
  (t2 < t1 ->
   nx_time_diff t1 t2 = ((0xFFFFFFFFFFFFFFF - t1) + t2) mod 2 ^ 64 /\
   0xFFFFFFFFFFFFFFF = 2 ^ 60 - 1 /\
   nx_time_diff t1 t2 <> (t2 - t1) mod 2 ^ 64).
Proof.
  unfold is_u64. intros H1 H2.
  assert (Hwrap : nx_time_diff t1 t2 =
                  if t2 >=? t1 then t2 - t1
                  else ((0xFFFFFFFFFFFFFFF - t1) + t2) mod 2 ^ 64).
  { unfold nx_time_diff, wrap64. destruct (Z.geb_spec t2 t1) as [Hge | Hlt].
    - apply Z.mod_small. lia.
    - rewrite Zplus_mod_idemp_l. reflexivity. }
  split.
  - intros Hge. rewrite Hwrap.
    destruct (Z.geb_spec t2 t1); [reflexivity | lia].
  - intros Hlt. rewrite Hwrap.
    destruct (Z.geb_spec t2 t1); [lia |].
    split; [reflexivity |]. split; [reflexivity |].
    change (2 ^ 64) with 18446744073709551616 in *.
    change 0xFFFFFFFFFFFFFFF with 1152921504606846975.
    intros Heq.
    Z.div_mod_to_equations. lia.
Qed.

Lemma C10_nx_time_diff_witness :
  (is_u64 0xFFFFFFFFFFFFFFF0 /\ is_u64 0x10) /\
  (0x10 >= 0xFFFFFFFFFFFFFFF0 -> nx_time_diff 0xFFFFFFFFFFFFFFF0 0x10
      = 0x10 - 0xFFFFFFFFFFFFFFF0) /\
  (0x10 < 0xFFFFFFFFFFFFFFF0 ->
   nx_time_diff 0xFFFFFFFFFFFFFFF0 0x10
     = ((0xFFFFFFFFFFFFFFF - 0xFFFFFFFFFFFFFFF0) + 0x10) mod 2 ^ 64 /\
   0xFFFFFFFFFFFFFFF = 2 ^ 60 - 1 /\
   nx_time_diff 0xFFFFFFFFFFFFFFF0 0x10
     <> (0x10 - 0xFFFFFFFFFFFFFFF0) mod 2 ^ 64).
Proof.
  split; [unfold is_u64; lia |].
  apply C10_nx_time_diff; unfold is_u64; lia.
Defined.

Example nx_time_diff_wrapped :
  nx_time_diff 0xFFFFFFFFFFFFFFF0 0x10 = 0x100000000000001F /\
  (0x10 - 0xFFFFFFFFFFFFFFF0) mod 2 ^ 64 = 0x20.
Proof. split; reflexivity. Qed.

(** ** C9: [cudaCheck_] *)

Section StringFacts.

Local Open Scope string_scope.

Lemma string_app_assoc (a b c : string) : (a ++ b) ++ c = a ++ (b ++ c).
Proof.
  induction a as [| ch a IH]; cbn.
  - reflexivity.
  - rewrite IH. reflexivity.
Qed.

Lemma contains_prefix s t : contains (s ++ t) s.
Proof. exists "", t. reflexivity. Qed.

Lemma contains_app_r s t needle : contains t needle -> contains (s ++ t) needle.
Proof.
  intros (before & after & ->). exists (s ++ before), after.
  rewrite string_app_assoc. reflexivity.
Qed.

Lemma contains_app_l s t needle : contains s needle -> contains (s ++ t) needle.
Proof.
  intros (before & after & ->). exists before, (after ++ t).
  rewrite !string_app_assoc. reflexivity.
Qed.

End StringFacts.

Create HintDb strings.

#[local] Hint Resolve contains_prefix contains_app_r contains_app_l : strings.

Lemma printCudaErrorMessage_throws file line cmd error message :
  exists what,
    printCudaErrorMessage file line cmd error message = Throws what /\
    reports what file line cmd error message.
Proof.
  eexists. split; [reflexivity |].
  unfold reports. repeat split; auto 12 with strings.
Qed.

Section CudaFacts.

Variables CUDA_SUCCESS cudaSuccess : Z.
Variables cuGetErrorName cuGetErrorString : Z -> string.
Variables cudaGetErrorName cudaGetErrorString : Z -> string.

Lemma cudaCheck_CUresult_failure file line cmd result :
  result <> CUDA_SUCCESS ->
  exists what,
    cudaCheck_CUresult CUDA_SUCCESS cuGetErrorName cuGetErrorString
      file line cmd result = Throws what /\
    reports what file line cmd (cuGetErrorName result)
      (cuGetErrorString result).
Proof.
  intros Hne. unfold cudaCheck_CUresult.
  destruct (Z.eqb_spec result CUDA_SUCCESS) as [Heq | _]; [contradiction |].
  destruct (printCudaErrorMessage_throws file line cmd
              (cuGetErrorName result) (cuGetErrorString result))
    as (what & Hthrow & Hrep).
  exists what. cbv zeta. rewrite Hthrow. split; [reflexivity | exact Hrep].
Qed.

Lemma cudaCheck_cudaError_t_failure file line cmd result :
  result <> cudaSuccess ->
  exists what,
    cudaCheck_cudaError_t cudaSuccess cudaGetErrorName cudaGetErrorString
      file line cmd result = Throws what /\
    reports what file line cmd (cudaGetErrorName result)
      (cudaGetErrorString result).
Proof.
  intros Hne. unfold cudaCheck_cudaError_t.
  destruct (Z.eqb_spec result cudaSuccess) as [Heq | _]; [contradiction |].
  destruct (printCudaErrorMessage_throws file line cmd
              (cudaGetErrorName result) (cudaGetErrorString result))
    as (what & Hthrow & Hrep).
  exists what. cbv zeta. rewrite Hthrow. split; [reflexivity | exact Hrep].
Qed.

End CudaFacts.

(** C9: both overloads of [cudaCheck_] return [true] when the result is
    the success value; for every other result they throw a
    [std::runtime_error] whose message contains the file name, the line
    number, the checked expression, the error name and the error
    description; and they never return [false]. *)
Theorem C9_cudaCheck
  (CUDA_SUCCESS cudaSuccess : Z)
  (cuGetErrorName cuGetErrorString cudaGetErrorName cudaGetErrorString
     : Z -> string)
  (file : string) (line : Z) (cmd : string) (result : Z) :
  let driver :=
    cudaCheck_CUresult CUDA_SUCCESS cuGetErrorName cuGetErrorString
      file line cmd result in
  let runtime :=
    cudaCheck_cudaError_t cudaSuccess cudaGetErrorName cudaGetErrorString
      file line cmd result in
  (result = CUDA_SUCCESS -> driver = Returns true) /\
  (result <> CUDA_SUCCESS ->
   exists what, driver = Throws what /\
     reports what file line cmd (cuGetErrorName result)
       (cuGetErrorString result)) /\
  driver <> Returns false /\
  (result = cudaSuccess -> runtime = Returns true) /\
  (result <> cudaSuccess ->
   exists what, runtime = Throws what /\
     reports what file line cmd (cudaGetErrorName result)
       (cudaGetErrorString result)) /\
  runtime <> Returns false.
Proof.
  cbv zeta.
  pose proof (cudaCheck_CUresult_failure CUDA_SUCCESS cuGetErrorName
                cuGetErrorString file line cmd result) as Hdriver.
  pose proof (cudaCheck_cudaError_t_failure cudaSuccess cudaGetErrorName
                cudaGetErrorString file line cmd result) as Hruntime.
  repeat split.
  - intros ->. unfold cudaCheck_CUresult. rewrite Z.eqb_refl. reflexivity.
  - exact Hdriver.
  - destruct (Z.eq_dec result CUDA_SUCCESS) as [-> | Hne].
    + unfold cudaCheck_CUresult. rewrite Z.eqb_refl. discriminate.
    + destruct (Hdriver Hne) as (what & -> & _). discriminate.
  - intros ->. unfold cudaCheck_cudaError_t. rewrite Z.eqb_refl. reflexivity.
  - exact Hruntime.
  - destruct (Z.eq_dec result cudaSuccess) as [-> | Hne].
    + unfold cudaCheck_cudaError_t. rewrite Z.eqb_refl. discriminate.
    + destruct (Hruntime Hne) as (what & -> & _). discriminate.
Qed.

Example cudaCheck_failure_message :
  cudaCheck_cudaError_t 0
    (fun _ => "cudaErrorMemoryAllocation"%string)
    (fun _ => "out of memory"%string)
    "alloc.cu" 17 "cudaMalloc(&p, n)" 2
  = Throws (nl ++ "alloc.cu, line 17:" ++ nl
            ++ "cudaCheck(cudaMalloc(&p, n));" ++ nl
            ++ "cudaErrorMemoryAllocation: out of memory" ++ nl)%string.
Proof. reflexivity. Qed.

(** * Further properties of the access macros *)

(** ** Bit-vector identities *)

Lemma extract_insert_other g v w1 s1 w2 s2 :
  0 <= s1 -> 0 <= w1 -> s1 + w1 <= 32 ->
  0 <= s2 -> 0 <= w2 -> s2 + w2 <= 32 ->
  s1 + w1 <= s2 \/ s2 + w2 <= s1 ->
  extract_bits (wrap32 (insert_bits g v w1 s1)) w2 s2
  = extract_bits (wrap32 g) w2 s2.
Proof.
  intros Hs1 Hw1 Hf1 Hs2 Hw2 Hf2 Hd.
  unfold extract_bits, insert_bits, not32, wrap32.
  destruct Hd; Z.bitblast.
Qed.

Lemma insert_insert_same g v1 v2 w s :
  0 <= s -> 0 <= w -> s + w <= 32 ->
  wrap32 (insert_bits (wrap32 (insert_bits g v1 w s)) v2 w s)
  = wrap32 (insert_bits g v2 w s).
Proof.
  intros Hs Hw Hf. unfold insert_bits, not32, wrap32. Z.bitblast.
Qed.

Lemma insert_extract_self g w s :
  0 <= s -> 0 <= w -> s + w <= 32 ->
  wrap32 (insert_bits g (extract_bits g w s) w s) = wrap32 g.
Proof.
  intros Hs Hw Hf. unfold extract_bits, insert_bits, not32, wrap32.
  Z.bitblast.
Qed.

Lemma insert_insert_commute g v1 v2 w1 s1 w2 s2 :
  0 <= s1 -> 0 <= w1 -> s1 + w1 <= 32 ->
  0 <= s2 -> 0 <= w2 -> s2 + w2 <= 32 ->
  s1 + w1 <= s2 \/ s2 + w2 <= s1 ->
  wrap32 (insert_bits (wrap32 (insert_bits g v1 w1 s1)) v2 w2 s2)
  = wrap32 (insert_bits (wrap32 (insert_bits g v2 w2 s2)) v1 w1 s1).
Proof.
  intros Hs1 Hw1 Hf1 Hs2 Hw2 Hf2 Hd.
  unfold insert_bits, not32, wrap32.
  destruct Hd; Z.bitblast.
Qed.

Lemma insert_bits_low g v w s :
  0 <= s -> 0 <= w -> insert_bits g (v mod 2 ^ w) w s = insert_bits g v w s.
Proof.
  intros Hs Hw. unfold insert_bits.
  rewrite !Z.land_ones by lia. rewrite Z.mod_mod; [reflexivity |].
  apply Z.pow_nonzero; lia.
Qed.

Lemma split_word_bits g w s :
  0 <= s -> 0 <= w -> s + w <= 32 ->
  Z.lor (Z.land g (not32 (wrap32 (Z.shiftl (Z.ones w) s))))
        (Z.shiftl (extract_bits g w s) s) = wrap32 g /\
  Z.land (Z.land g (not32 (wrap32 (Z.shiftl (Z.ones w) s))))
         (Z.shiftl (extract_bits g w s) s) = 0.
Proof.
  intros Hs Hw Hf. unfold extract_bits, not32, wrap32.
  split; Z.bitblast.
Qed.

(** ** The accessors through these identities *)

Lemma htobe32_wrap h x : htobe32 h (wrap32 x) = htobe32 h x.
Proof. destruct h; cbn; rewrite wrap32_idem; reflexivity. Qed.

Lemma htobe32_be32toh h st : is_u32 st -> htobe32 h (be32toh h st) = st.
Proof.
  intros Hst. change (htobe32 h (be32toh h st)) with (be32toh h (htobe32 h st)).
  rewrite be32toh_htobe32. apply wrap32_small, Hst.
Qed.

Lemma htobe64_be64toh h st : is_u64 st -> htobe64 h (be64toh h st) = st.
Proof.
  intros Hst. change (htobe64 h (be64toh h st)) with (be64toh h (htobe64 h st)).
  rewrite be64toh_htobe64. apply wrap64_small, Hst.
Qed.

Lemma get32_wrap h st : wrap32 (get32 h st) = get32 h st.
Proof. apply wrap32_small. apply get32_range. Qed.

Section FieldValues.

Variable h : byte_order.
Variable REG : field.
Hypothesis Hfits : fits REG.

Lemma getnn_extract st :
  getnn h REG st
  = Some (extract_bits (get32 h st) (width REG) (31 - offset REG)).
Proof. apply getnn_fits, Hfits. Qed.

Lemma putnn_insert st X :
  putnn h REG st X
  = Some (htobe32 h (insert_bits (get32 h st) X (width REG)
                                 (31 - offset REG))).
Proof. apply putnn_fits, Hfits. Qed.

Lemma get32_putnn st X st' :
  putnn h REG st X = Some st' ->
  get32 h st'
  = wrap32 (insert_bits (get32 h st) X (width REG) (31 - offset REG)).
Proof.
  rewrite putnn_insert. intros [= <-]. apply get32_htobe32.
Qed.

End FieldValues.

(** ** What a user of the sub-word accessors can rely on *)

(** [getnn] on a field that fits is defined and its value is below
    [2^width]: no bit of a neighbouring field leaks into it. *)
Theorem getnn_range (h : byte_order) (REG : field) (st : Z) :
  fits REG ->
  exists x, getnn h REG st = Some x /\ 0 <= x < 2 ^ width REG.
Proof.
  intros Hfits. rewrite (getnn_extract h REG Hfits). eexists.
  split; [reflexivity |]. unfold extract_bits. destruct Hfits as [Hw Ho].
  rewrite Z.land_ones by lia. apply Z.mod_pos_bound.
  apply Z.pow_pos_nonneg; lia.
Qed.

Lemma getnn_range_witness :
  fits csb_cc /\
  exists x, getnn LittleEndian csb_cc 0x00402a00 = Some x
            /\ 0 <= x < 2 ^ width csb_cc.
Proof.
  assert (Hfits : fits csb_cc) by (unfold fits; cbn; lia).
  split; [exact Hfits |]. apply getnn_range. exact Hfits.
Defined.

(** Writing one field with [putnn] does not change what [getnn] reads
    from a field of the same word that occupies other bits. *)
Theorem putnn_preserves_disjoint_field
  (h : byte_order) (REG1 REG2 : field) (st v : Z) :
  fits REG1 -> fits REG2 -> spans_disjoint REG1 REG2 ->
  (st' <- putnn h REG1 st v ;; getnn h REG2 st') = getnn h REG2 st.
Proof.
  intros H1 H2 Hd.
  rewrite (putnn_insert h REG1 H1). cbn [obind].
  rewrite !(getnn_extract h REG2 H2), get32_htobe32.
  rewrite <- (get32_wrap h st) at 2.
  f_equal. destruct H1, H2. unfold spans_disjoint in Hd.
  apply extract_insert_other; lia.
Qed.

Lemma putnn_preserves_disjoint_field_witness :
  (fits csb_ce /\ fits csb_cc /\ spans_disjoint csb_ce csb_cc) /\
  (st' <- putnn LittleEndian csb_ce 0x00402a00 0xe0 ;;
   getnn LittleEndian csb_cc st')
  = getnn LittleEndian csb_cc 0x00402a00.
Proof.
  assert (H1 : fits csb_ce) by (unfold fits; cbn; lia).
  assert (H2 : fits csb_cc) by (unfold fits; cbn; lia).
  assert (Hd : spans_disjoint csb_ce csb_cc)
    by (unfold spans_disjoint; cbn; lia).
  split; [auto |]. apply putnn_preserves_disjoint_field; assumption.
Defined.

(** A second [putnn] to the same field overwrites the first: nothing of
    the earlier value is left. *)
Theorem putnn_overwrites (h : byte_order) (REG : field) (st v1 v2 : Z) :
  fits REG ->
  (st' <- putnn h REG st v1 ;; putnn h REG st' v2) = putnn h REG st v2.
Proof.
  intros Hfits.
  rewrite (putnn_insert h REG Hfits st v1). cbn [obind].
  rewrite !(putnn_insert h REG Hfits), get32_htobe32.
  f_equal. rewrite <- (htobe32_wrap h (insert_bits (wrap32 _) _ _ _)).
  rewrite <- (htobe32_wrap h (insert_bits (get32 h st) _ _ _)).
  f_equal. destruct Hfits. apply insert_insert_same; lia.
Qed.

Lemma putnn_overwrites_witness :
  fits in_histlen /\
  (st' <- putnn BigEndian in_histlen 0x12345678 0xfff ;;
   putnn BigEndian in_histlen st' 0x001)
  = putnn BigEndian in_histlen 0x12345678 0x001.
Proof.
  assert (Hfits : fits in_histlen) by (unfold fits; cbn; lia).
  split; [exact Hfits |]. apply putnn_overwrites. exact Hfits.
Defined.

(** Writing back the value just read leaves the stored word as it was. *)
Theorem putnn_of_getnn (h : byte_order) (REG : field) (st : Z) :
  fits REG -> is_u32 st ->
  (x <- getnn h REG st ;; putnn h REG st x) = Some st.
Proof.
  intros Hfits Hst.
  rewrite (getnn_extract h REG Hfits). cbn [obind].
  rewrite (putnn_insert h REG Hfits). f_equal.
  rewrite <- htobe32_wrap.
  destruct Hfits. rewrite insert_extract_self by lia.
  rewrite get32_wrap. apply htobe32_be32toh, Hst.
Qed.

Lemma putnn_of_getnn_witness :
  (fits out_sfbt /\ is_u32 0xdeadbeef) /\
  (x <- getnn LittleEndian out_sfbt 0xdeadbeef ;;
   putnn LittleEndian out_sfbt 0xdeadbeef x) = Some 0xdeadbeef.
Proof.
  assert (Hfits : fits out_sfbt) by (unfold fits; cbn; lia).
  assert (Hst : is_u32 0xdeadbeef) by (unfold is_u32; lia).
  split; [auto |]. apply putnn_of_getnn; assumption.
Defined.

(** Writes to two fields that occupy different bits of a word commute. *)
Theorem putnn_commutes
  (h : byte_order) (REG1 REG2 : field) (st v1 v2 : Z) :
  fits REG1 -> fits REG2 -> spans_disjoint REG1 REG2 ->
  (st' <- putnn h REG1 st v1 ;; putnn h REG2 st' v2)
  = (st' <- putnn h REG2 st v2 ;; putnn h REG1 st' v1).
Proof.
  intros H1 H2 Hd.
  rewrite (putnn_insert h REG1 H1 st), (putnn_insert h REG2 H2 st).
  cbn [obind].
  rewrite (putnn_insert h REG2 H2), (putnn_insert h REG1 H1), !get32_htobe32.
  f_equal.
  rewrite <- (htobe32_wrap h (insert_bits (wrap32 _) v2 _ _)).
  rewrite <- (htobe32_wrap h (insert_bits (wrap32 _) v1 _ _)).
  f_equal. destruct H1, H2. unfold spans_disjoint in Hd.
  apply insert_insert_commute; lia.
Qed.

Lemma putnn_commutes_witness :
  (fits crb_c /\ fits crb_at /\ spans_disjoint crb_c crb_at) /\
  (st' <- putnn LittleEndian crb_c 0 1 ;; putnn LittleEndian crb_at st' 1)
  = (st' <- putnn LittleEndian crb_at 0 1 ;; putnn LittleEndian crb_c st' 1).
Proof.
  assert (H1 : fits crb_c) by (unfold fits; cbn; lia).
  assert (H2 : fits crb_at) by (unfold fits; cbn; lia).
  assert (Hd : spans_disjoint crb_c crb_at)
    by (unfold spans_disjoint; cbn; lia).
  split; [auto |]. apply putnn_commutes; assumption.
Defined.

(** [putnn] uses the low [width] bits of its value only, and assigns a
    32-bit word: two values that agree modulo [2^width] give the same
    register, so a value too large for the field cannot reach the
    neighbouring fields. *)
Theorem putnn_truncates (h : byte_order) (REG : field) (st v v' : Z) :
  fits REG -> v mod 2 ^ width REG = v' mod 2 ^ width REG ->
  putnn h REG st v = putnn h REG st v' /\
  exists st', putnn h REG st v = Some st' /\ is_u32 st'.
Proof.
  intros Hfits Hv. rewrite !(putnn_insert h REG Hfits). split.
  - destruct Hfits as [Hw Ho].
    rewrite <- (insert_bits_low _ v), <- (insert_bits_low _ v') by lia.
    rewrite Hv. reflexivity.
  - eexists. split; [reflexivity | apply htobe32_range].
Qed.

Lemma putnn_truncates_witness :
  (fits in_sfbt /\ 0x1f mod 2 ^ width in_sfbt = 0xf mod 2 ^ width in_sfbt) /\
  putnn BigEndian in_sfbt 0 0x1f = putnn BigEndian in_sfbt 0 0xf /\
  exists st', putnn BigEndian in_sfbt 0 0x1f = Some st' /\ is_u32 st'.
Proof.
  assert (Hfits : fits in_sfbt) by (unfold fits; cbn; lia).
  split; [split; [exact Hfits | reflexivity] |].
  apply putnn_truncates; [exact Hfits | reflexivity].
Defined.

(** A register word is its field plus the rest: [unget32] and [getnn]
    split the value [get32] reads, without overlap. *)
Theorem unget32_getnn_split (h : byte_order) (REG : field) (st : Z) :
  fits REG ->
  exists u x,
    unget32 h REG st = Some u /\ getnn h REG st = Some x /\
    get32 h st = u + x * 2 ^ (31 - offset REG) /\
    Z.land u (x * 2 ^ (31 - offset REG)) = 0.
Proof.
  intros Hfits.
  rewrite (unget32_fits h REG Hfits), (getnn_extract h REG Hfits).
  destruct Hfits as [Hw Ho].
  destruct (split_word_bits (get32 h st) (width REG) (31 - offset REG))
    as [Hor Hand]; try lia.
  rewrite get32_wrap in Hor.
  do 2 eexists. split; [reflexivity |]. split; [reflexivity |].
  rewrite <- Z.shiftl_mul_pow2 by lia. split; [| exact Hand].
  rewrite <- Z.or_to_plus by exact Hand. symmetry. exact Hor.
Qed.

Lemma unget32_getnn_split_witness :
  fits csb_cs /\
  exists u x,
    unget32 LittleEndian csb_cs 0x78563412 = Some u /\
    getnn LittleEndian csb_cs 0x78563412 = Some x /\
    get32 LittleEndian 0x78563412 = u + x * 2 ^ (31 - offset csb_cs) /\
    Z.land u (x * 2 ^ (31 - offset csb_cs)) = 0.
Proof.
  assert (Hfits : fits csb_cs) by (unfold fits; cbn; lia).
  split; [exact Hfits |]. apply unget32_getnn_split. exact Hfits.
Defined.

(** Reading a whole word and storing it back leaves memory as it was,
    for 32-bit and for 64-bit registers. *)
Theorem put_of_get (h : byte_order) (st32 st64 : Z) :
  is_u32 st32 -> is_u64 st64 ->
  put32 h (get32 h st32) = st32 /\ put64 h (get64 h st64) = st64.
Proof.
  intros H32 H64. split.
  - apply htobe32_be32toh, H32.
  - apply htobe64_be64toh, H64.
Qed.

Lemma put_of_get_witness :
  (is_u32 0x11223344 /\ is_u64 0x1122334455667788) /\
  put32 LittleEndian (get32 LittleEndian 0x11223344) = 0x11223344 /\
  put64 LittleEndian (get64 LittleEndian 0x1122334455667788)
    = 0x1122334455667788.
Proof.
  split; [unfold is_u32, is_u64; lia |].
  apply put_of_get; [unfold is_u32 | unfold is_u64]; lia.
Defined.

(** [size_mask(x)] is defined for [0 <= x < 32] only (so not for a full
    32-bit width), and then it is [2^x - 1]: AND-ing with it keeps the
    [x] least significant bits, none of them for [x = 0]. *)
Theorem size_mask_low_bits (x : Z) :
  (size_mask x <> None <-> 0 <= x < 32) /\
  (forall m, size_mask x = Some m ->
     m = 2 ^ x - 1 /\ forall X, Z.land X m = X mod 2 ^ x).
Proof.
  split; [apply size_mask_defined |].
  intros m Hm.
  assert (Hx : 0 <= x < 32).
  { apply size_mask_defined. rewrite Hm. discriminate. }
  rewrite size_mask_ones in Hm by exact Hx. injection Hm as <-.
  split.
  - rewrite Z.ones_equiv. lia.
  - intros X. apply Z.land_ones. lia.
Qed.

Lemma size_mask_low_bits_witness :
  size_mask 12 = Some 0xfff /\
  0xfff = 2 ^ 12 - 1 /\ forall X, Z.land X 0xfff = X mod 2 ^ 12.
Proof.
  split; [reflexivity |].
  apply (proj2 (size_mask_low_bits 12)). reflexivity.
Defined.

(** ** The unions of the register structs *)

(** Of the fields the header overlays on one word, two different ones
    never share a bit, with one exception: the DHT length lies inside the
    remaining byte count (input and output alike), whose low 12 bits it
    is.  So, but for that pair, writing a field of a union leaves the
    other fields of the union alone. *)
Theorem union_words_overlap :
  (forall word REG1 REG2,
      In word union_words -> In REG1 word -> In REG2 word ->
      REG1 = REG2 \/ spans_disjoint REG1 REG2 \/
      (REG1 = in_rembytecnt /\ REG2 = in_dhtlen) \/
      (REG1 = in_dhtlen /\ REG2 = in_rembytecnt)) /\
  (out_rembytecnt = in_rembytecnt /\ out_dhtlen = in_dhtlen) /\
  (forall h st,
      getnn h in_dhtlen st
      = (x <- getnn h in_rembytecnt st ;; Some (x mod 2 ^ 12))).
Proof.
  split; [| split].
  - intros word REG1 REG2 Hword H1 H2.
    cbn in Hword.
    repeat (destruct Hword as [<- | Hword]);
      try contradiction;
      cbn in H1, H2;
      repeat (destruct H1 as [<- | H1]); try contradiction;
      repeat (destruct H2 as [<- | H2]); try contradiction;
      first [ left; reflexivity
            | right; left; unfold spans_disjoint; cbn; lia
            | right; right; left; split; reflexivity
            | right; right; right; split; reflexivity ].
  - split; reflexivity.
  - intros h st.
    assert (Hd : fits in_dhtlen) by (unfold fits; cbn; lia).
    assert (Hr : fits in_rembytecnt) by (unfold fits; cbn; lia).
    rewrite (getnn_extract h _ Hd), (getnn_extract h _ Hr).
    cbn [obind width offset in_dhtlen in_rembytecnt]. f_equal.
    unfold extract_bits. rewrite <- (Z.land_ones _ 12) by lia.
    Z.bitblast.
Qed.

(** ** The completion extension in the CSB word *)

Lemma fits_csb_ce : fits csb_ce.
Proof. unfold fits. cbn. lia. Qed.

Lemma get_csb_ce_ms3b_value h st :
  get_csb_ce_ms3b h st = Some (Z.shiftr (get32 h st mod 2 ^ 8) 5).
Proof.
  unfold get_csb_ce_ms3b, get_csb_ce.
  rewrite (getnn_extract h csb_ce fits_csb_ce). cbn [obind width offset csb_ce].
  unfold extract_bits. change (31 - 31) with 0.
  rewrite Z.shiftr_0_r, Z.land_ones by lia.
  rewrite wrap32_small.
  - rewrite shr32_defined by lia. reflexivity.
  - unfold is_u32.
    pose proof (Z.mod_pos_bound (get32 h st) (2 ^ 8) ltac:(lia)). lia.
Qed.

(** [put_csb_ce_ms3b] then [get_csb_ce_ms3b] gives the low three bits of
    the value back, whatever the register held, and the other five bits
    of the completion extension read as zero after the put. *)
Theorem csb_ce_ms3b_roundtrip (h : byte_order) (st X : Z) :
  (st' <- put_csb_ce_ms3b h st X ;; get_csb_ce_ms3b h st') = Some (X mod 8) /\
  (st' <- put_csb_ce_ms3b h st X ;; get_csb_ce h st') = Some (32 * (X mod 8)).
Proof.
  unfold put_csb_ce_ms3b. rewrite shl32_defined by lia. cbn [obind].
  rewrite (putnn_insert h csb_ce fits_csb_ce). cbn [obind width offset csb_ce].
  change (31 - 31) with 0. split.
  - rewrite get_csb_ce_ms3b_value, get32_htobe32. f_equal.
    change (X mod 8) with (X mod 2 ^ 3).
    unfold insert_bits, not32, wrap32. Z.bitblast.
  - unfold get_csb_ce.
    rewrite (getnn_extract h csb_ce fits_csb_ce), get32_htobe32.
    cbn [obind width offset csb_ce]. change (31 - 31) with 0. f_equal.
    replace (32 * (X mod 8)) with (Z.shiftl (X mod 2 ^ 3) 5)
      by (rewrite Z.shiftl_mul_pow2 by lia; change (2 ^ 3) with 8;
          change (2 ^ 5) with 32; lia).
    unfold extract_bits, insert_bits, not32, wrap32. Z.bitblast.
Qed.

(** On the three bits [get_csb_ce_ms3b] returns, the predicates test the
    top bits of the completion-extension byte: partial completion is bit
    7 of the register value (ce(0)), termination bit 6 (ce(1)), and a
    valid TPBC bit 5 (ce(2)), on a host of either byte order. *)
Theorem csb_ce_ms3b_flags (h : byte_order) (st : Z) :
  exists ce,
    get_csb_ce_ms3b h st = Some ce /\ 0 <= ce < 8 /\
    (holds (csb_ce_partial_completion ce)
     <-> Z.testbit (get32 h st) 7 = true) /\
    (holds (csb_ce_termination ce) <-> Z.testbit (get32 h st) 6 = true) /\
    (holds (csb_ce_tpbc_valid ce) <-> Z.testbit (get32 h st) 5 = true).
Proof.
  rewrite get_csb_ce_ms3b_value. eexists. split; [reflexivity |].
  set (g := get32 h st).
  assert (Hbit : forall k, 0 <= k < 3 ->
            Z.testbit (Z.shiftr (g mod 2 ^ 8) 5) k = Z.testbit g (k + 5)).
  { intros k Hk. rewrite Z.shiftr_spec, Z.testbit_mod_pow2 by lia.
    replace (k + 5 <? 8) with true by (symmetry; apply Z.ltb_lt; lia).
    reflexivity. }
  split.
  - rewrite Z.shiftr_div_pow2 by lia.
    pose proof (Z.mod_pos_bound g (2 ^ 8) ltac:(lia)) as Hm.
    change (2 ^ 8) with 256 in *. change (2 ^ 5) with 32.
    Z.div_mod_to_equations. lia.
  - rewrite csb_ce_partial_flag, csb_ce_termination_flag,
      csb_ce_tpbc_valid_flag.
    unfold flag_set.
    change (Z.log2 CSB_CE_PARTIAL) with 2.
    change (Z.log2 CSB_CE_TERMINATE) with 1.
    change (Z.log2 CSB_CE_TPBC_VALID) with 0.
    rewrite !Hbit by lia. cbn. tauto.
Qed.

(** ** The completion codes in the CSB word *)

Lemma fits_csb_cc : fits csb_cc.
Proof. unfold fits. cbn. lia. Qed.

Lemma nx_error_codes_bytes : Forall (fun e => 0 <= e < 2 ^ 8) nx_error_codes.
Proof.
  unfold nx_error_codes.
  repeat (apply Forall_cons; [cbv; split; [discriminate | reflexivity] |]).
  apply Forall_nil.
Qed.

(** Every completion code of the header fits the 8-bit [csb_cc] field:
    it is read back unchanged after [putnn], and the codes are pairwise
    different.  The end marker [ERR_NX_END] does not fit: written to the
    field it reads back as [ERR_NX_OK]. *)
Theorem nx_error_codes_in_csb_cc :
  (forall h st e,
      In e nx_error_codes ->
      (st' <- putnn h csb_cc st e ;; getnn h csb_cc st') = Some e) /\
  NoDup nx_error_codes /\
  (forall h st,
      (st' <- putnn h csb_cc st ERR_NX_END ;; getnn h csb_cc st')
      = Some ERR_NX_OK).
Proof.
  split; [| split].
  - intros h st e HIn. rewrite (putnn_getnn_fits h csb_cc st e fits_csb_cc).
    f_equal. apply Z.mod_small.
    exact (proj1 (Forall_forall _ _) nx_error_codes_bytes e HIn).
  - repeat (constructor; [cbn; intuition discriminate |]). constructor.
  - intros h st.
    rewrite (putnn_getnn_fits h csb_cc st ERR_NX_END fits_csb_cc).
    reflexivity.
Qed.

(** ** The flags inside the CSB address *)

Lemma overlay_get32 h A W :
  overlays_low_word h A W -> get32 h W = get64 h A mod 2 ^ 32.
Proof.
  unfold overlays_low_word. intros Hov.
  rewrite bytes_of_u32_be, bytes_of_u64_be in Hov.
  change (skipn 4 (be_bytes64 (be64toh h A)))
    with (be_bytes32 (be64toh h A)) in Hov.
  apply (f_equal be_value) in Hov.
  rewrite !be_value_be_bytes32 in Hov.
  change (wrap32 (be32toh h W)) with (wrap32 (get32 h W)) in Hov.
  rewrite get32_wrap in Hov. exact Hov.
Qed.

Lemma extract_flag g k :
  0 <= k < 32 ->
  extract_bits (g mod 2 ^ 32) 1 k = Z.b2z (Z.testbit g k).
Proof.
  intros Hk. unfold extract_bits.
  rewrite Z.land_ones by lia. change (2 ^ 1) with 2.
  rewrite <- Z.bit0_mod. f_equal.
  rewrite Z.shiftr_spec, Z.add_0_l by lia.
  apply Z.mod_pow2_bits_low. lia.
Qed.

Lemma fits_crb_c : fits crb_c.
Proof. unfold fits. cbn. lia. Qed.

Lemma fits_crb_at : fits crb_at.
Proof. unfold fits. cbn. lia. Qed.

(** The flags [crb_c] and [crb_at] share memory with [csb_address]: read
    through the union, they are bits 3 and 1 of the address value
    [get64] reads, on a host of either byte order. *)
Theorem crb_flags_in_csb_address (h : byte_order) (A W : Z) :
  overlays_low_word h A W ->
  getnn h crb_c W = Some (Z.b2z (Z.testbit (get64 h A) 3)) /\
  getnn h crb_at W = Some (Z.b2z (Z.testbit (get64 h A) 1)).
Proof.
  intros Hov. apply overlay_get32 in Hov.
  rewrite (getnn_extract h crb_c fits_crb_c),
    (getnn_extract h crb_at fits_crb_at), Hov.
  cbn [width offset crb_c crb_at].
  change (31 - 28) with 3. change (31 - 30) with 1.
  rewrite !extract_flag by lia. split; reflexivity.
Qed.

Lemma crb_flags_in_csb_address_witness :
  overlays_low_word LittleEndian 0x8a67452301000000 0x8a674523 /\
  getnn LittleEndian crb_c 0x8a674523
    = Some (Z.b2z (Z.testbit (get64 LittleEndian 0x8a67452301000000) 3)) /\
  getnn LittleEndian crb_at 0x8a674523
    = Some (Z.b2z (Z.testbit (get64 LittleEndian 0x8a67452301000000) 1)).
Proof.
  assert (Hov : overlays_low_word LittleEndian 0x8a67452301000000 0x8a674523)
    by reflexivity.
  split; [exact Hov |]. apply crb_flags_in_csb_address. exact Hov.
Defined.

Lemma csb_address_mask_value : csb_address_mask = 2 ^ 64 - 16.
Proof. reflexivity. Qed.

Lemma land_csb_address_mask a :
  is_u64 a -> Z.land a csb_address_mask = a - a mod 16.
Proof.
  unfold is_u64. intros Ha.
  assert (Hshape : Z.land a csb_address_mask = Z.shiftl (Z.shiftr a 4) 4).
  { assert (Hhigh : forall i, 64 <= i -> Z.testbit a i = false).
    { intros i Hi. rewrite <- (Z.mod_small a (2 ^ 64)) by exact Ha.
      apply Z.mod_pow2_bits_high. lia. }
    unfold csb_address_mask, wrap64. change 15 with (Z.ones 4).
    apply Z.bits_inj'. intros i Hi.
    rewrite Z.land_spec, Z.testbit_mod_pow2, Z.lnot_spec, Z.testbit_ones
      by lia.
    destruct (Z.ltb_spec i 4).
    - rewrite Z.shiftl_spec_low by lia.
      replace (0 <=? i) with true by (symmetry; apply Z.leb_le; lia).
      cbn. rewrite !andb_false_r. reflexivity.
    - rewrite Z.shiftl_spec, Z.shiftr_spec by lia.
      replace (i - 4 + 4) with i by lia.
      rewrite andb_false_r. cbn [negb]. rewrite andb_true_r.
      destruct (Z.ltb_spec i 64); cbn.
      + apply andb_true_r.
      + rewrite Hhigh by lia. reflexivity. }
  rewrite Hshape, Z.shiftl_mul_pow2, Z.shiftr_div_pow2 by lia.
  change (2 ^ 4) with 16. Z.div_mod_to_equations. lia.
Qed.

(** Masking an address with [csb_address_mask] rounds it down to a
    multiple of 16, and a masked address stored with [put64] leaves both
    flags of the union, [crb_c] and [crb_at], reading 0. *)
Theorem csb_address_mask_clears_flags (a : Z) :
  is_u64 a ->
  Z.land a csb_address_mask = a - a mod 16 /\
  forall h W,
    overlays_low_word h (put64 h (Z.land a csb_address_mask)) W ->
    getnn h crb_c W = Some 0 /\ getnn h crb_at W = Some 0.
Proof.
  intros Ha. split; [apply land_csb_address_mask, Ha |].
  intros h W Hov. apply overlay_get32 in Hov.
  rewrite (getnn_extract h crb_c fits_crb_c),
    (getnn_extract h crb_at fits_crb_at), Hov.
  cbn [width offset crb_c crb_at].
  change (31 - 28) with 3. change (31 - 30) with 1.
  rewrite !extract_flag by lia.
  unfold put64, get64. rewrite be64toh_htobe64.
  rewrite land_csb_address_mask by exact Ha.
  assert (Hlow : forall k, 0 <= k < 4 ->
            Z.testbit (wrap64 (a - a mod 16)) k = false).
  { intros k Hk. rewrite wrap64_bits.
    replace (a - a mod 16) with (Z.shiftl (a / 16) 4)
      by (rewrite Z.shiftl_mul_pow2 by lia; change (2 ^ 4) with 16;
          Z.div_mod_to_equations; lia).
    rewrite Z.shiftl_spec_low by lia. apply andb_false_r. }
  rewrite !Hlow by lia. split; reflexivity.
Qed.

Lemma csb_address_mask_clears_flags_witness :
  is_u64 0x00007fffdeadbeef /\
  Z.land 0x00007fffdeadbeef csb_address_mask
    = 0x00007fffdeadbeef - 0x00007fffdeadbeef mod 16 /\
  forall h W,
    overlays_low_word h
      (put64 h (Z.land 0x00007fffdeadbeef csb_address_mask)) W ->
    getnn h crb_c W = Some 0 /\ getnn h crb_at W = Some 0.
Proof.
  assert (Ha : is_u64 0x00007fffdeadbeef) by (unfold is_u64; lia).
  split; [exact Ha |]. apply csb_address_mask_clears_flags. exact Ha.
Defined.

(** ** More on the function codes *)

(** Over the thirteen function codes, [fc_is_compress] holds for exactly
    the eight compression codes: neither a decompression code nor
    [GZIP_FC_WRAP] passes for compression. *)
Theorem fc_is_compress_table (c : function_code) :
  holds (fc_is_compress (fc_value c)) <-> fc_operation c = Compress.
Proof.
  unfold holds.
  destruct c; cbn; split; intros H; try reflexivity; try discriminate;
    try lia; exfalso; apply H; reflexivity.
Qed.

(** Every function code is even and below 32, so the byte-count-limit
    bit can be OR-ed in and taken off again without touching the code;
    and a code, with or without that bit, is read back unchanged from the
    [gzip_fc] field. *)
Theorem function_code_limit_bit (c : function_code) :
  Z.testbit (fc_value c) 0 = false /\ 0 <= fc_value c < 32 /\
  Z.land (Z.lor (fc_value c) GZIP_FC_LIMIT_MASK)
         (Z.lnot GZIP_FC_LIMIT_MASK) = fc_value c /\
  forall h st,
    (st' <- putnn h gzip_fc st (fc_value c) ;; getnn h gzip_fc st')
    = Some (fc_value c) /\
    (st' <- putnn h gzip_fc st (Z.lor (fc_value c) GZIP_FC_LIMIT_MASK) ;;
     getnn h gzip_fc st')
    = Some (Z.lor (fc_value c) GZIP_FC_LIMIT_MASK).
Proof.
  assert (Hfits : fits gzip_fc) by (unfold fits; cbn; lia).
  split; [destruct c; reflexivity |].
  split; [destruct c; cbn; lia |].
  split; [destruct c; reflexivity |].
  intros h st. rewrite !(putnn_getnn_fits h gzip_fc st _ Hfits).
  split; f_equal; destruct c; reflexivity.
Qed.

(** For every value of the function-code field, not only the thirteen
    codes: a code that counts symbols is a compression code, and the
    byte-count-limit bit changes neither classification. *)
Theorem fc_predicates_any_code (fc : Z) :
  (holds (fc_has_count fc) -> holds (fc_is_compress fc)) /\
  fc_is_compress (Z.lor fc GZIP_FC_LIMIT_MASK) = fc_is_compress fc /\
  fc_has_count (Z.lor fc GZIP_FC_LIMIT_MASK) = fc_has_count fc.
Proof.
  assert (H16 : Z.land (Z.lor fc GZIP_FC_LIMIT_MASK) 0x10 = Z.land fc 0x10).
  { rewrite Z.land_lor_distr_l. change (Z.land GZIP_FC_LIMIT_MASK 0x10) with 0.
    apply Z.lor_0_r. }
  assert (H4 : Z.land (Z.lor fc GZIP_FC_LIMIT_MASK) 0x4 = Z.land fc 0x4).
  { rewrite Z.land_lor_distr_l. change (Z.land GZIP_FC_LIMIT_MASK 0x4) with 0.
    apply Z.lor_0_r. }
  split; [| split].
  - unfold holds, fc_has_count, c_and.
    destruct (Z.eqb_spec (fc_is_compress fc) 0) as [-> | Hne]; [lia | auto].
  - unfold fc_is_compress. rewrite H16. reflexivity.
  - unfold fc_has_count, fc_is_compress. rewrite H16, H4. reflexivity.
Qed.

(** ** More on the timebase helpers *)

Lemma nx_time_diff_forward t1 t2 :
  is_u64 t1 -> is_u64 t2 -> t1 <= t2 -> nx_time_diff t1 t2 = t2 - t1.
Proof.
  unfold is_u64, nx_time_diff, wrap64. intros H1 H2 Hle.
  destruct (Z.geb_spec t2 t1); [| lia]. apply Z.mod_small. lia.
Qed.

(** Without a wraparound, intervals add up: for 64-bit readings
    [t1 <= t2 <= t3] the difference from [t1] to [t3] is the sum of the
    two partial differences, and a reading differs from itself by 0. *)
Theorem nx_time_diff_additive (t1 t2 t3 : Z) :
  is_u64 t1 -> is_u64 t2 -> is_u64 t3 -> t1 <= t2 -> t2 <= t3 ->
  nx_time_diff t1 t3 = nx_time_diff t1 t2 + nx_time_diff t2 t3 /\
  nx_time_diff t2 t2 = 0.
Proof.
  intros H1 H2 H3 H12 H23.
  rewrite !nx_time_diff_forward by (assumption || lia). lia.
Qed.

Lemma nx_time_diff_additive_witness :
  (is_u64 100 /\ is_u64 250 /\ is_u64 0xFFFFFFFFFFFFFFFF /\
   100 <= 250 /\ 250 <= 0xFFFFFFFFFFFFFFFF) /\
  nx_time_diff 100 0xFFFFFFFFFFFFFFFF
    = nx_time_diff 100 250 + nx_time_diff 250 0xFFFFFFFFFFFFFFFF /\
  nx_time_diff 250 250 = 0.
Proof.
  split; [unfold is_u64; lia |].
  apply nx_time_diff_additive; unfold is_u64; lia.
Defined.

(** When both readings are below 2^60 and the later one is the smaller,
    the result is one tick short of the difference modulo 2^60: the
    constant is the largest 60-bit value, and the tick on which a 60-bit
    counter goes from that value to 0 is not counted. *)
Theorem nx_time_diff_wrap_60 (t1 t2 : Z) :
  0 <= t2 < t1 -> t1 < 2 ^ 60 ->
  nx_time_diff t1 t2 = (t2 - t1) mod 2 ^ 60 - 1 /\
  0 <= nx_time_diff t1 t2 < 2 ^ 60 - 1.
Proof.
  intros H2 H1. unfold nx_time_diff, wrap64.
  destruct (Z.geb_spec t2 t1); [lia |].
  change (2 ^ 60) with 1152921504606846976 in *.
  change (2 ^ 64) with 18446744073709551616.
  change 0xFFFFFFFFFFFFFFF with 1152921504606846975.
  rewrite (Z.mod_small (1152921504606846975 - t1)) by lia.
  rewrite (Z.mod_small (1152921504606846975 - t1 + t2)) by lia.
  replace ((t2 - t1) mod 1152921504606846976)
    with (t2 - t1 + 1152921504606846976).
  - lia.
  - apply Z.mod_unique with (q := -1); lia.
Qed.

Lemma nx_time_diff_wrap_60_witness :
  (0 <= 5 < 0xFFFFFFFFFFFFFFE /\ 0xFFFFFFFFFFFFFFE < 2 ^ 60) /\
  nx_time_diff 0xFFFFFFFFFFFFFFE 5
    = (5 - 0xFFFFFFFFFFFFFFE) mod 2 ^ 60 - 1 /\
  0 <= nx_time_diff 0xFFFFFFFFFFFFFFE 5 < 2 ^ 60 - 1.
Proof.
  split; [lia |]. apply nx_time_diff_wrap_60; lia.
Defined.

(** The cache does not hold a failure: while the platform answers 0,
    every call of [nx_get_freq] asks it again and returns 0. *)
Theorem nx_get_freq_zero_platform (hw : nat -> Z) (n : nat) (w : world) :
  tb_freq w = 0 ->
  (forall k, (hw_reads w <= k < hw_reads w + n)%nat -> wrap64 (hw k) = 0) ->
  nx_get_freq_calls hw n w = (repeat 0 n, mkworld 0 (hw_reads w + n)).
Proof.
  revert w. induction n as [| n IH]; intros w Hz Hhw.
  - cbn. destruct w as [f r]. cbn in Hz. subst f.
    rewrite Nat.add_0_r. reflexivity.
  - cbn [nx_get_freq_calls repeat]. unfold nx_get_freq.
    rewrite Hz. cbn [Z.eqb]. rewrite (Hhw (hw_reads w)) by lia.
    rewrite IH.
    + cbn [hw_reads]. rewrite Nat.add_succ_r. reflexivity.
    + reflexivity.
    + intros k Hk. cbn [hw_reads] in Hk. apply Hhw. lia.
Qed.

Lemma nx_get_freq_zero_platform_witness :
  (tb_freq (mkworld 0 0) = 0 /\
   forall k, (hw_reads (mkworld 0 0) <= k < hw_reads (mkworld 0 0) + 3)%nat ->
             wrap64 ((fun _ : nat => 0) k) = 0) /\
  nx_get_freq_calls (fun _ => 0) 3 (mkworld 0 0)
  = (repeat 0 3, mkworld 0 (hw_reads (mkworld 0 0) + 3)).
Proof.
  split; [split; [reflexivity | intros k Hk; reflexivity] |].
  apply nx_get_freq_zero_platform; [reflexivity | intros k Hk; reflexivity].
Defined.

(** With a cached frequency, the integer that [nx_time_to_us] converts
    to [double] is the quotient of [nxtime * 1000000] by the frequency as
    long as the product is below 2^64; from 2^64 on the product wraps and
    the quotient is too small.  The world is left as it is. *)
Theorem nx_time_to_us_quotient_cached (hw : nat -> Z) (nxtime : Z) (w : world) :
  0 < tb_freq w < 2 ^ 64 -> is_u64 nxtime ->
  exists q,
    nx_time_to_us_quotient hw nxtime w = (Some q, w) /\
    (nxtime * 1000000 < 2 ^ 64 -> q = nxtime * 1000000 / tb_freq w) /\
    (2 ^ 64 <= nxtime * 1000000 -> q < nxtime * 1000000 / tb_freq w).
Proof.
  unfold is_u64. intros Hf Ht. unfold nx_time_to_us_quotient.
  rewrite nx_get_freq_cached by lia.
  destruct (Z.eqb_spec (tb_freq w) 0) as [Hz | _]; [lia |].
  eexists. split; [reflexivity |]. unfold wrap64. split.
  - intros Hsmall. rewrite Z.mod_small by lia. reflexivity.
  - intros Hbig.
    set (f := tb_freq w) in *. set (a := nxtime * 1000000) in *.
    assert (Hmod : a mod 2 ^ 64 <= a - 2 ^ 64).
    { pose proof (Z.mod_pos_bound a (2 ^ 64) ltac:(lia)).
      pose proof (Z.div_mod a (2 ^ 64) ltac:(lia)).
      assert (1 <= a / 2 ^ 64) by (apply Z.div_le_lower_bound; lia).
      nia. }
    apply Z.le_lt_trans with ((a - 2 ^ 64) / f).
    + apply Z.div_le_mono; lia.
    + assert (Hstep : (a - 2 ^ 64) / f <= (a - f) / f)
        by (apply Z.div_le_mono; lia).
      replace (a - f) with (a + (-1) * f) in Hstep by lia.
      rewrite Z.div_add in Hstep by lia. lia.
Qed.

Lemma nx_time_to_us_quotient_cached_witness :
  (0 < tb_freq (mkworld 512000000 1) < 2 ^ 64 /\ is_u64 1024) /\
  exists q,
    nx_time_to_us_quotient (fun _ => 0) 1024 (mkworld 512000000 1)
      = (Some q, mkworld 512000000 1) /\
    (1024 * 1000000 < 2 ^ 64 ->
     q = 1024 * 1000000 / tb_freq (mkworld 512000000 1)) /\
    (2 ^ 64 <= 1024 * 1000000 ->
     q < 1024 * 1000000 / tb_freq (mkworld 512000000 1)).
Proof.
  split; [unfold is_u64; cbn; lia |].
  apply nx_time_to_us_quotient_cached; [cbn; lia | unfold is_u64; lia].
Defined.

(** When nothing is cached and the platform answers 0, the division in
    [nx_time_to_us] is by zero: the function has no defined result. *)
Theorem nx_time_to_us_division_by_zero (hw : nat -> Z) (nxtime : Z) (w : world) :
  tb_freq w = 0 -> wrap64 (hw (hw_reads w)) = 0 ->
  nx_time_to_us_quotient hw nxtime w = (None, mkworld 0 (S (hw_reads w))).
Proof.
  intros Hz Hhw. unfold nx_time_to_us_quotient, nx_get_freq.
  rewrite Hz. cbn [Z.eqb]. rewrite Hhw. reflexivity.
Qed.

Lemma nx_time_to_us_division_by_zero_witness :
  (tb_freq (mkworld 0 0) = 0 /\
   wrap64 ((fun _ : nat => 0) (hw_reads (mkworld 0 0))) = 0) /\
  nx_time_to_us_quotient (fun _ => 0) 1024 (mkworld 0 0)
  = (None, mkworld 0 (S (hw_reads (mkworld 0 0)))).
Proof.
  split; [split; reflexivity |].
  apply nx_time_to_us_division_by_zero; reflexivity.
Defined.

Example nx_time_to_us_overflow :
  fst (nx_time_to_us_quotient (fun _ => 0) (2 ^ 45) (mkworld 512000000 1))
    = Some 32690679717 /\
  2 ^ 45 * 1000000 / 512000000 = 68719476736.
Proof. split; reflexivity. Qed.

(** ** Deflate stream manipulation *)

Lemma wrap8_bits x i : Z.testbit (wrap8 x) i = (i <? 8) && Z.testbit x i.
Proof. unfold wrap8. apply Z.testbit_mod_pow2. lia. Qed.

Lemma u8_high_bits x i : is_u8 x -> 8 <= i -> Z.testbit x i = false.
Proof.
  unfold is_u8. intros Hx Hi.
  rewrite <- (Z.mod_small x (2 ^ 8)) by exact Hx.
  apply Z.mod_pow2_bits_high. lia.
Qed.

Lemma set_final_bit_bits x i :
  is_u8 x -> 0 <= i ->
  Z.testbit (set_final_bit x) i = if i =? 0 then true else Z.testbit x i.
Proof.
  intros Hx Hi. unfold set_final_bit.
  rewrite wrap8_bits, Z.lor_spec. change 1 with (2 ^ 0) at 1.
  rewrite Z.pow2_bits_eqb by lia. rewrite (Z.eqb_sym 0 i).
  destruct (Z.eqb_spec i 0) as [-> | Hne];
    [rewrite orb_true_r; reflexivity |].
  rewrite orb_false_r. destruct (Z.ltb_spec i 8); [reflexivity |].
  rewrite u8_high_bits by (assumption || lia). reflexivity.
Qed.

Lemma clr_final_bit_bits x i :
  is_u8 x -> 0 <= i ->
  Z.testbit (clr_final_bit x) i = if i =? 0 then false else Z.testbit x i.
Proof.
  intros Hx Hi. unfold clr_final_bit.
  rewrite wrap8_bits, Z.land_spec, Z.lnot_spec by lia.
  change 1 with (2 ^ 0) at 1.
  rewrite Z.pow2_bits_eqb by lia. rewrite (Z.eqb_sym 0 i).
  destruct (Z.eqb_spec i 0) as [-> | Hne]; cbn [negb].
  - rewrite andb_false_r. reflexivity.
  - rewrite andb_true_r. destruct (Z.ltb_spec i 8); [reflexivity |].
    rewrite u8_high_bits by (assumption || lia). reflexivity.
Qed.

Lemma wrap8_range x : is_u8 (wrap8 x).
Proof. unfold is_u8, wrap8. apply Z.mod_pos_bound. lia. Qed.

(** On a byte, [set_final_bit] sets bit 0 and [clr_final_bit] clears it;
    neither changes another bit nor leaves the byte range, so each undoes
    the other but for bit 0: clearing after setting is clearing, setting
    after clearing is setting. *)
Theorem final_bit_macros (x : Z) :
  is_u8 x ->
  (is_u8 (set_final_bit x) /\ is_u8 (clr_final_bit x)) /\
  (Z.testbit (set_final_bit x) 0 = true /\
   Z.testbit (clr_final_bit x) 0 = false) /\
  (forall i, 0 < i ->
     Z.testbit (set_final_bit x) i = Z.testbit x i /\
     Z.testbit (clr_final_bit x) i = Z.testbit x i) /\
  clr_final_bit (set_final_bit x) = clr_final_bit x /\
  set_final_bit (clr_final_bit x) = set_final_bit x.
Proof.
  intros Hx.
  assert (Hs : is_u8 (set_final_bit x)) by apply wrap8_range.
  assert (Hc : is_u8 (clr_final_bit x)) by apply wrap8_range.
  split; [split; assumption |]. split; [| split; [| split]].
  - rewrite set_final_bit_bits, clr_final_bit_bits by (assumption || lia).
    split; reflexivity.
  - intros i Hi.
    rewrite set_final_bit_bits, clr_final_bit_bits by (assumption || lia).
    replace (i =? 0) with false by (symmetry; apply Z.eqb_neq; lia).
    split; reflexivity.
  - apply Z.bits_inj'. intros i Hi.
    rewrite !clr_final_bit_bits, set_final_bit_bits by (assumption || lia).
    destruct (i =? 0); reflexivity.
  - apply Z.bits_inj'. intros i Hi.
    rewrite !set_final_bit_bits, clr_final_bit_bits by (assumption || lia).
    destruct (i =? 0); reflexivity.
Qed.

Lemma final_bit_macros_witness :
  is_u8 0xfe /\
  (is_u8 (set_final_bit 0xfe) /\ is_u8 (clr_final_bit 0xfe)) /\
  (Z.testbit (set_final_bit 0xfe) 0 = true /\
   Z.testbit (clr_final_bit 0xfe) 0 = false) /\
  (forall i, 0 < i ->
     Z.testbit (set_final_bit 0xfe) i = Z.testbit 0xfe i /\
     Z.testbit (clr_final_bit 0xfe) i = Z.testbit 0xfe i) /\
  clr_final_bit (set_final_bit 0xfe) = clr_final_bit 0xfe /\
  set_final_bit (clr_final_bit 0xfe) = set_final_bit 0xfe.
Proof.
  split; [unfold is_u8; lia |].
  apply final_bit_macros. unfold is_u8. lia.
Defined.

Example final_bit_values :
  set_final_bit 0xfe = 0xff /\ clr_final_bit 0xff = 0xfe.
Proof. split; reflexivity. Qed.

Lemma store_byte_inside buf i v :
  (i < List.length buf)%nat ->
  exists buf',
    store_byte buf i v = Some buf' /\
    List.length buf' = List.length buf /\
    nth i buf' 0 = v /\
    forall j, j <> i -> nth j buf' 0 = nth j buf 0.
Proof.
  revert i. induction buf as [| b rest IH]; intros i Hi; cbn in Hi; [lia |].
  destruct i as [| i'].
  - exists (v :: rest). repeat split. intros j Hj.
    destruct j; [contradiction | reflexivity].
  - destruct (IH i' ltac:(lia)) as (rest' & Hst & Hlen & Hnth & Hother).
    exists (b :: rest'). cbn. rewrite Hst. cbn.
    repeat split; [congruence | exact Hnth |].
    intros j Hj. destruct j; [reflexivity | apply Hother; congruence].
Qed.

Lemma store_byte_outside buf i v :
  (List.length buf <= i)%nat -> store_byte buf i v = None.
Proof.
  revert i. induction buf as [| b rest IH]; intros i Hi; [reflexivity |].
  cbn in Hi. destruct i as [| i']; [lia |].
  cbn. rewrite IH by lia. reflexivity.
Qed.

Lemma empty_fh_header_byte b :
  wrap8 (Z.lor 2 (Z.land 1 b)) = if Z.odd b then 3 else 2.
Proof.
  replace (Z.land 1 b) with (if Z.odd b then 1 else 0).
  - destruct (Z.odd b); reflexivity.
  - rewrite Z.land_comm. change 1 with (Z.ones 1).
    rewrite Z.land_ones by lia. change (2 ^ 1) with 2.
    rewrite Zmod_odd. reflexivity.
Qed.

Lemma deflate_bit_at buf p k :
  (k < 8)%nat ->
  deflate_bit buf (8 * p + k) = Z.testbit (nth p buf 0) (Z.of_nat k).
Proof.
  intros Hk. unfold deflate_bit.
  replace ((8 * p + k) / 8)%nat with p.
  - replace ((8 * p + k) mod 8)%nat with k; [reflexivity |].
    symmetry. rewrite Nat.add_comm, Nat.mul_comm, Nat.Div0.mod_add.
    apply Nat.mod_small. exact Hk.
  - symmetry. rewrite Nat.add_comm, Nat.mul_comm, Nat.div_add by lia.
    rewrite Nat.div_small by exact Hk. reflexivity.
Qed.

(** [append_empty_fh_blk] needs two bytes at [p]: it is undefined when
    they are not both inside the buffer.  Otherwise it changes those two
    bytes only, to 2 or 3 and to 0, and the Deflate bits that start at
    [p] are then the final-block bit (bit 0 of [b]), the block type 01 of
    a fixed Huffman block, and zeros: the 7-bit end-of-block code and
    the padding of the second byte. *)
Theorem append_empty_fh_blk_writes (buf : list Z) (p : nat) (b : Z) :
  ((List.length buf <= S p)%nat -> append_empty_fh_blk buf p b = None) /\
  ((S p < List.length buf)%nat ->
   exists buf',
     append_empty_fh_blk buf p b = Some buf' /\
     List.length buf' = List.length buf /\
     (forall j, j <> p -> j <> S p -> nth j buf' 0 = nth j buf 0) /\
     nth p buf' 0 = (if Z.odd b then 3 else 2) /\ nth (S p) buf' 0 = 0 /\
     deflate_bit buf' (8 * p) = Z.odd b /\
     deflate_bit buf' (8 * p + 1) = true /\
     deflate_bit buf' (8 * p + 2) = false /\
     (forall k, (3 <= k < 16)%nat -> deflate_bit buf' (8 * p + k) = false)).
Proof.
  unfold append_empty_fh_blk. rewrite empty_fh_header_byte. split.
  - intros Hout.
    destruct (Nat.lt_ge_cases p (List.length buf)) as [Hin | Hge].
    + destruct (store_byte_inside buf p (if Z.odd b then 3 else 2) Hin)
        as (buf1 & -> & Hlen & _). cbn [obind].
      apply store_byte_outside. lia.
    + rewrite store_byte_outside by exact Hge. reflexivity.
  - intros Hin.
    destruct (store_byte_inside buf p (if Z.odd b then 3 else 2) ltac:(lia))
      as (buf1 & -> & Hlen1 & Hp1 & Hother1). cbn [obind].
    destruct (store_byte_inside buf1 (S p) 0 ltac:(lia))
      as (buf2 & -> & Hlen2 & Hp2 & Hother2).
    assert (Hfirst : nth p buf2 0 = if Z.odd b then 3 else 2).
    { rewrite Hother2 by lia. exact Hp1. }
    exists buf2. split; [reflexivity |].
    split; [congruence |].
    split; [intros j Hj1 Hj2; rewrite Hother2, Hother1 by assumption;
            reflexivity |].
    split; [exact Hfirst |]. split; [exact Hp2 |].
    assert (Hbit : forall k, (k < 8)%nat ->
              deflate_bit buf2 (8 * p + k)
              = Z.testbit (if Z.odd b then 3 else 2) (Z.of_nat k)).
    { intros k Hk. rewrite deflate_bit_at by exact Hk.
      rewrite Hfirst. reflexivity. }
    split; [| split; [| split]].
    + rewrite <- (Nat.add_0_r (8 * p)), Hbit by lia.
      destruct (Z.odd b); reflexivity.
    + rewrite Hbit by lia. destruct (Z.odd b); reflexivity.
    + rewrite Hbit by lia. destruct (Z.odd b); reflexivity.
    + intros k Hk. destruct (Nat.lt_ge_cases k 8) as [Hlow | Hhigh].
      * rewrite Hbit by exact Hlow.
        assert (Hcases : (k = 3 \/ k = 4 \/ k = 5 \/ k = 6 \/ k = 7)%nat)
          by lia.
        destruct (Z.odd b); decompose [or] Hcases; subst k; reflexivity.
      * replace (8 * p + k)%nat with (8 * S p + (k - 8))%nat by lia.
        rewrite deflate_bit_at by lia. rewrite Hp2. apply Z.testbit_0_l.
Qed.

Example append_empty_fh_blk_final :
  append_empty_fh_blk [0x78; 0x9c; 0xaa; 0xbb] 2 1
  = Some [0x78; 0x9c; 0x03; 0x00] /\
  append_empty_fh_blk [0x78; 0x9c; 0xaa] 2 1 = None.
Proof. split; reflexivity. Qed.
